(** * Video import screen: store, file-copy pipeline and import loop

    A shallow embedding of

      - the zustand store of [src/store/useVideoStore.ts]: [addVideos],
        [clearVideos] and [deleteVideo] ([loadVideos] only reads the
        persisted value back through [JSON.parse] and is left out);
      - the file-system utilities imported as [../utils/fileSystem]:
        [validateVideoSize], [ensureVideoDirExists] and
        [copyVideoToStorage], in the version that resolves [content://]
        URIs before copying;
      - the [SelectVideosButton] component: [handleSelectVideos], that is
        the size validation followed by the sequential import loop.

    Asynchronous functions are run to completion one at a time (the code
    awaits every promise it creates), so an [async] function is a state
    transformer that either returns or throws.  Calls into the native
    bridges (react-native-fs, AsyncStorage) act on a model of the device
    and may fail at any call: a fault script in the world decides which.
    Every run also yields the trace of what it did to the outside. *)

From Stdlib Require Import ZArith String Ascii List Bool Lia DecimalString.
From Stdlib Require DecimalZ DecimalPos.
From stdpp Require Import base option list gmap strings.
Import ListNotations.

(** ** JavaScript values and built-ins

    A JS string is represented by its UTF-8 encoding, one [ascii] per byte
    (well-formed strings only: no lone surrogates).  A JS [number] is an
    integer or [NaN]; the code never produces a fraction that it stores. *)

Module JS.

Inductive number := Num (z : Z) | NaN.

Record Error := mkError { message : string }.

Definition number_eq_dec (a b : number) : {a = b} + {a <> b}.
Proof. decide equality. apply Z.eq_dec. Defined.

(** [a < b] and [a > b]: every comparison with [NaN] is false. *)
Definition lt (a b : number) : bool :=
  match a, b with Num x, Num y => (x <? y)%Z | _, _ => false end.

Definition gt (a b : number) : bool := lt b a.

(** [String(n)] for an integer. *)
Definition string_of_Z (z : Z) : string := NilZero.string_of_int (Z.to_int z).

Definition toString (n : number) : string :=
  match n with Num z => string_of_Z z | NaN => "NaN" end.

(** [x || d] on strings and numbers: the falsy values are [null]/[undefined],
    the empty string, [0] and [NaN]. *)
Definition truthy_string (s : option string) : bool :=
  match s with Some (String _ _) => true | _ => false end.

Definition or_string (s : option string) (d : string) : string :=
  match s with Some (String c r) => String c r | _ => d end.

Definition or_number (n : option number) (d : number) : number :=
  match n with
  | Some (Num z) => if (z =? 0)%Z then d else Num z
  | _ => d
  end.

(** [s.includes(c)] for a one-character needle. *)
Fixpoint includes (c : ascii) (s : string) : bool :=
  match s with
  | EmptyString => false
  | String a r => Ascii.eqb a c || includes c r
  end.

(** [s.startsWith(p)]. *)
Definition startsWith (p s : string) : bool := String.prefix p s.

(** [xs.join(sep)]. *)
Fixpoint join (sep : string) (xs : list string) : string :=
  match xs with
  | [] => EmptyString
  | [x] => x
  | x :: r => x +:+ sep +:+ join sep r
  end.

(** [xs.slice(0, n)]. *)
Definition slice0 {A} (n : nat) (xs : list A) : list A := firstn n xs.

Definition code (c : ascii) : Z := Z.of_N (N_of_ascii c).

Definition hex_value (c : ascii) : option Z :=
  let n := code c in
  if (48 <=? n)%Z && (n <=? 57)%Z then Some (n - 48)%Z
  else if (97 <=? n)%Z && (n <=? 122)%Z then Some (n - 87)%Z
  else if (65 <=? n)%Z && (n <=? 90)%Z then Some (n - 55)%Z
  else None.

(** *** [parseInt(s)] with no radix argument

    Leading white space is skipped (the ASCII white space characters), an
    optional sign is read, a [0x]/[0X] prefix selects radix 16, and the
    longest run of digits is the value; no digit at all gives [NaN]. *)

Definition is_space (c : ascii) : bool :=
  let n := code c in ((9 <=? n)%Z && (n <=? 13)%Z) || (n =? 32)%Z.

Fixpoint trim_start (s : string) : string :=
  match s with
  | String c r => if is_space c then trim_start r else s
  | EmptyString => s
  end.

Fixpoint digits (R : Z) (s : string) (acc : option Z) : option Z :=
  match s with
  | EmptyString => acc
  | String c r =>
      match hex_value c with
      | Some d => if (d <? R)%Z then digits R r (Some (default 0%Z acc * R + d)%Z) else acc
      | None => acc
      end
  end.

Definition unsigned (s : string) : option Z :=
  match s with
  | String "0" (String "x" r) | String "0" (String "X" r) => digits 16 r None
  | _ => digits 10 s None
  end.

Definition parseInt (s : string) : number :=
  let t := trim_start s in
  let '(sign, body) :=
    match t with
    | String "-" r => ((-1)%Z, r)
    | String "+" r => (1%Z, r)
    | _ => (1%Z, t)
    end in
  match unsigned body with
  | Some v => Num (sign * v)
  | None => NaN
  end.

(** *** [decodeURIComponent]

    Every [%XY] escape is turned into the byte it denotes; a [%] that is
    not followed by two hexadecimal digits, or decoded bytes that are not
    a well-formed UTF-8 sequence, raise [URIError]. *)

Inductive item := Raw (c : ascii) | Escaped (b : Z).

Fixpoint unescape (s : string) : option (list item) :=
  match s with
  | EmptyString => Some []
  | String "%" (String h (String l r)) =>
      match hex_value h, hex_value l with
      | Some x, Some y =>
          if (x <? 16)%Z && (y <? 16)%Z
          then cons (Escaped (16 * x + y)) <$> unescape r
          else None
      | _, _ => None
      end
  | String "%" _ => None
  | String c r => cons (Raw c) <$> unescape r
  end.

Definition byte (b : Z) : ascii := ascii_of_N (Z.to_N b).

(** [utf8 pending cp low its]: [pending] continuation bytes are still owed
    for the code point accumulated in [cp], which must end up at least
    [low] (no overlong form), outside the surrogates and at most 0x10FFFF. *)
Fixpoint utf8 (pending : nat) (cp low : Z) (its : list item) : option string :=
  match its, pending with
  | [], O => Some EmptyString
  | [], S _ => None
  | Raw c :: r, O => String c <$> utf8 O 0 0 r
  | Raw _ :: _, S _ => None
  | Escaped b :: r, O =>
      if (b <? 128)%Z then String (byte b) <$> utf8 O 0 0 r
      else if (192 <=? b)%Z && (b <? 224)%Z then String (byte b) <$> utf8 1 (b - 192) 128 r
      else if (224 <=? b)%Z && (b <? 240)%Z then String (byte b) <$> utf8 2 (b - 224) 2048 r
      else if (240 <=? b)%Z && (b <? 248)%Z then String (byte b) <$> utf8 3 (b - 240) 65536 r
      else None
  | Escaped b :: r, S k =>
      if (128 <=? b)%Z && (b <? 192)%Z then
        let cp' := (cp * 64 + (b - 128))%Z in
        match k with
        | O =>
            if (low <=? cp')%Z && (cp' <=? 1114111)%Z
               && negb ((55296 <=? cp')%Z && (cp' <=? 57343)%Z)
            then String (byte b) <$> utf8 O 0 0 r
            else None
        | S _ => String (byte b) <$> utf8 k cp' low r
        end
      else None
  end.

Definition URIError : Error := mkError "URI malformed".

Definition decodeURIComponent (s : string) : Error + string :=
  match unescape s ≫= utf8 O 0 0 with
  | Some d => inr d
  | None => inl URIError
  end.

(** *** [JSON.stringify] of strings and numbers *)

Definition dquote : string := String "034"%char EmptyString.
Definition backslash : string := String "092"%char EmptyString.

Definition hexdigit (n : Z) : ascii :=
  if (n <? 10)%Z then byte (48 + n) else byte (87 + n).

Definition quote_char (c : ascii) : string :=
  let n := code c in
  if (n =? 34)%Z then backslash +:+ dquote
  else if (n =? 92)%Z then backslash +:+ backslash
  else if (n =? 8)%Z then backslash +:+ "b"
  else if (n =? 9)%Z then backslash +:+ "t"
  else if (n =? 10)%Z then backslash +:+ "n"
  else if (n =? 12)%Z then backslash +:+ "f"
  else if (n =? 13)%Z then backslash +:+ "r"
  else if (n <? 32)%Z then
    backslash +:+ "u00" +:+ String (hexdigit (n / 16)) (String (hexdigit (n mod 16)) EmptyString)
  else String c EmptyString.

Fixpoint quote_body (s : string) : string :=
  match s with
  | EmptyString => EmptyString
  | String c r => quote_char c +:+ quote_body r
  end.

Definition json_string (s : string) : string := dquote +:+ quote_body s +:+ dquote.

Definition json_number (n : number) : string :=
  match n with Num z => string_of_Z z | NaN => "null" end.

End JS.

Import JS (number, Num, NaN).

(** ** Data model *)

(** [interface VideoMetadata] of the store. *)
Module VideoMetadata.
Record t := mk {
  id : string;
  name : string;
  size : number;  (* in bytes *)
  path : string;
  createdAt : number;
}.
End VideoMetadata.

Abbreviation VideoMetadata := VideoMetadata.t.

(** [JSON.stringify] of a record (keys in creation order) and of the list. *)
Definition json_of_video (v : VideoMetadata) : string :=
  "{" +:+ JS.json_string "id" +:+ ":" +:+ JS.json_string (VideoMetadata.id v)
  +:+ "," +:+ JS.json_string "name" +:+ ":" +:+ JS.json_string (VideoMetadata.name v)
  +:+ "," +:+ JS.json_string "size" +:+ ":" +:+ JS.json_number (VideoMetadata.size v)
  +:+ "," +:+ JS.json_string "path" +:+ ":" +:+ JS.json_string (VideoMetadata.path v)
  +:+ "," +:+ JS.json_string "createdAt" +:+ ":" +:+ JS.json_number (VideoMetadata.createdAt v)
  +:+ "}".

Definition JSON_stringify (vs : list VideoMetadata) : string :=
  "[" +:+ JS.join "," (map json_of_video vs) +:+ "]".

(** The state held by [useVideoStore]. *)
Record VideoStore := mkStore {
  videos : list VideoMetadata;
  isLoading : bool;
  error : option string;
  selectedVideo : option VideoMetadata;
}.

(** What [RNFS.stat] reports about an entry.  Depending on the platform
    bridge the size arrives as a number or as a string. *)
Inductive StatSize := SizeNumber (n : number) | SizeString (s : string).

Record StatResult := mkStat {
  stat_size : StatSize;
  originalFilepath : option string;
  isDirectory : bool;
}.

(** The state of the [SelectVideosButton] component ([useState] hooks). *)
Record Progress := mkProgress { current : Z; total : Z }.

Record ButtonState := mkButton {
  processing : bool;
  preparing : bool;
  progress : Progress;
}.

(** ** The world

    [fs] maps a path or URI to the entry react-native-fs finds there and
    [storage] is the AsyncStorage key-value store.  [clock] lists the
    values the coming [Date.now()] calls return ([0] once it is used
    up).  [faults] scripts the
    coming native calls, one entry per call: the call either behaves as
    on a healthy device or rejects (a copy may leave a partial file
    behind); once the script is used up every call is healthy. *)

Inductive Fault :=
| Healthy
| Rejects (e : JS.Error)
| RejectsPartway (e : JS.Error) (written : Z).

Record World := mkWorld {
  fs : gmap string StatResult;
  storage : gmap string string;
  clock : list Z;
  faults : list Fault;
  store : VideoStore;
  button : ButtonState;
}.

Definition with_fs (f : gmap string StatResult) (w : World) : World :=
  mkWorld f (storage w) (clock w) (faults w) (store w) (button w).
Definition with_storage (s : gmap string string) (w : World) : World :=
  mkWorld (fs w) s (clock w) (faults w) (store w) (button w).
Definition with_clock (c : list Z) (w : World) : World :=
  mkWorld (fs w) (storage w) c (faults w) (store w) (button w).
Definition with_faults (f : list Fault) (w : World) : World :=
  mkWorld (fs w) (storage w) (clock w) f (store w) (button w).
Definition with_store (s : VideoStore) (w : World) : World :=
  mkWorld (fs w) (storage w) (clock w) (faults w) s (button w).
Definition with_button (b : ButtonState) (w : World) : World :=
  mkWorld (fs w) (storage w) (clock w) (faults w) (store w) b.

(** ** Observable events

    Every native call is recorded with its reply, as are [console.error]
    and [Alert.alert].  [Enter_*] marks the call of a function the import
    loop calls, [Resolve_*] and [Reject_*] how the promise it returned
    settled. *)

Inductive Call :=
| RNFS_exists_ (p : string)
| RNFS_mkdir_ (p : string)
| RNFS_stat_ (p : string)
| RNFS_copyFile_ (src dst : string)
| RNFS_unlink_ (p : string)
| AsyncStorage_getItem_ (k : string)
| AsyncStorage_setItem_ (k v : string)
| AsyncStorage_removeItem_ (k : string).

Inductive Reply :=
| Done
| Bool (b : bool)
| Stat (st : StatResult)
| Item (v : option string)
| Rejected (e : JS.Error).

Inductive ConsoleArg := Text (s : string) | Err (e : JS.Error).

Inductive Event :=
| Native (c : Call) (r : Reply)
| Console_error (args : list ConsoleArg)
| Alert_alert (title msg : string)
| Enter_copyVideoToStorage (sourceUri : string) (fileName : option string)
| Resolve_copyVideoToStorage (sourceUri : string) (fileName : option string) (meta : VideoMetadata)
| Reject_copyVideoToStorage (sourceUri : string) (fileName : option string) (e : JS.Error)
| Enter_addVideos (newVideos : list VideoMetadata).

(** ** The monad of asynchronous code *)

Inductive Result (A : Type) :=
| Ok (a : A)
| Throw (e : JS.Error).
Arguments Ok {A} a.
Arguments Throw {A} e.

Record Run (A : Type) := mkRun {
  result : Result A;
  after : World;
  events : list Event;
}.
Arguments mkRun {A} _ _ _.
Arguments result {A} _.
Arguments after {A} _.
Arguments events {A} _.

Definition M (A : Type) : Type := World -> Run A.

Definition ret {A} (a : A) : M A := fun w => mkRun (Ok a) w [].

Definition throw {A} (e : JS.Error) : M A := fun w => mkRun (Throw e) w [].

Definition bind {A B} (m : M A) (k : A -> M B) : M B := fun w =>
  match m w with
  | mkRun (Ok a) w1 t1 =>
      match k a w1 with mkRun r w2 t2 => mkRun r w2 (t1 ++ t2) end
  | mkRun (Throw e) w1 t1 => mkRun (Throw e) w1 t1
  end.

(** [try { m } catch (e) { h e }]. *)
Definition try_catch {A} (m : M A) (h : JS.Error -> M A) : M A := fun w =>
  match m w with
  | mkRun (Ok a) w1 t1 => mkRun (Ok a) w1 t1
  | mkRun (Throw e) w1 t1 =>
      match h e w1 with mkRun r w2 t2 => mkRun r w2 (t1 ++ t2) end
  end.

(** [try { m } finally { f }]: the outcome of [m] stands unless [f] throws. *)
Definition try_finally {A} (m : M A) (f : M unit) : M A := fun w =>
  match m w with
  | mkRun r w1 t1 =>
      match f w1 with
      | mkRun (Ok _) w2 t2 => mkRun r w2 (t1 ++ t2)
      | mkRun (Throw e) w2 t2 => mkRun (Throw e) w2 (t1 ++ t2)
      end
  end.

Definition emit (ev : Event) : M unit := fun w => mkRun (Ok tt) w [ev].

Definition modify (f : World -> World) : M unit := fun w => mkRun (Ok tt) (f w) [].

Definition gets {A} (f : World -> A) : M A := fun w => mkRun (Ok (f w)) w [].

Definition when (b : bool) (m : M unit) : M unit := if b then m else ret tt.

(** A built-in that returns or throws. *)
Definition lift {A} (r : JS.Error + A) : M A :=
  match r with inl e => throw e | inr a => ret a end.

(** [marked enter settle m] runs [m] between the marker of its call and
    the marker of how it settled. *)
Definition marked {A} (enter : Event) (settle : Result A -> Event) (m : M A) : M A := fun w =>
  match m w with
  | mkRun r w1 t1 => mkRun r w1 (enter :: t1 ++ [settle r])
  end.

Declare Scope async_scope.
Delimit Scope async_scope with async.
Notation "x <- m ;; k" := (bind m (fun x => k))
  (at level 100, m at next level, k at level 200, right associativity) : async_scope.
Notation "m ;; k" := (bind m (fun _ => k))
  (at level 100, k at level 200, right associativity) : async_scope.
Local Open Scope async_scope.

(** ** Native bridges *)

Definition next_fault (w : World) : Fault * World :=
  match faults w with
  | [] => (Healthy, w)
  | f :: r => (f, with_faults r w)
  end.

(** A call [c] into a bridge.  The fault script is consulted first; a
    healthy call acts on the world through [act], which may itself reject
    (a missing file, say); [partial n] is what a call interrupted partway
    leaves behind. *)
Definition native {A} (c : Call) (reply : A -> Reply)
    (act : World -> Result A * World) (partial : Z -> World -> World) : M A := fun w =>
  let '(f, w0) := next_fault w in
  match f with
  | Healthy =>
      let '(r, w1) := act w0 in
      mkRun r w1 [Native c (match r with Ok a => reply a | Throw e => Rejected e end)]
  | Rejects e => mkRun (Throw e) w0 [Native c (Rejected e)]
  | RejectsPartway e n => mkRun (Throw e) (partial n w0) [Native c (Rejected e)]
  end.

Definition ENOENT : JS.Error := JS.mkError "ENOENT: no such file or directory".

Definition directory : StatResult := mkStat (SizeNumber (Num 0)) None true.

Definition plain_file (sz : StatSize) : StatResult := mkStat sz None false.

Definition RNFS_exists (p : string) : M bool :=
  native (RNFS_exists_ p) Bool
    (fun w => (Ok (match fs w !! p with Some _ => true | None => false end), w))
    (fun _ w => w).

Definition RNFS_mkdir (p : string) : M unit :=
  native (RNFS_mkdir_ p) (fun _ => Done)
    (fun w => (Ok tt, match fs w !! p with
                      | Some _ => w
                      | None => with_fs (<[p := directory]> (fs w)) w
                      end))
    (fun _ w => w).

Definition RNFS_stat (p : string) : M StatResult :=
  native (RNFS_stat_ p) Stat
    (fun w => (match fs w !! p with Some st => Ok st | None => Throw ENOENT end, w))
    (fun _ w => w).

Definition RNFS_copyFile (src dst : string) : M unit :=
  native (RNFS_copyFile_ src dst) (fun _ => Done)
    (fun w => match fs w !! src with
              | Some st => (Ok tt, with_fs (<[dst := plain_file (stat_size st)]> (fs w)) w)
              | None => (Throw ENOENT, w)
              end)
    (fun n w => with_fs (<[dst := plain_file (SizeNumber (Num n))]> (fs w)) w).

Definition RNFS_unlink (p : string) : M unit :=
  native (RNFS_unlink_ p) (fun _ => Done)
    (fun w => match fs w !! p with
              | Some _ => (Ok tt, with_fs (delete p (fs w)) w)
              | None => (Throw ENOENT, w)
              end)
    (fun _ w => w).

Definition AsyncStorage_getItem (k : string) : M (option string) :=
  native (AsyncStorage_getItem_ k) Item (fun w => (Ok (storage w !! k), w)) (fun _ w => w).

Definition AsyncStorage_setItem (k v : string) : M unit :=
  native (AsyncStorage_setItem_ k v) (fun _ => Done)
    (fun w => (Ok tt, with_storage (<[k := v]> (storage w)) w)) (fun _ w => w).

Definition AsyncStorage_removeItem (k : string) : M unit :=
  native (AsyncStorage_removeItem_ k) (fun _ => Done)
    (fun w => (Ok tt, with_storage (delete k (storage w)) w)) (fun _ w => w).

(** [Date.now()]: the next reading of the clock. *)
Definition Date_now : M Z := fun w =>
  match clock w with
  | [] => mkRun (Ok 0%Z) w []
  | t :: r => mkRun (Ok t) (with_clock r w) []
  end.

Definition console_error (args : list ConsoleArg) : M unit := emit (Console_error args).

Definition Alert_alert_ (title msg : string) : M unit := emit (Alert_alert title msg).

(** ** src/store/useVideoStore.ts *)

Definition STORAGE_KEY : string := "@start_poc_videos".

(** zustand's [set(partial)], one definition per field that is set. *)
Definition set_store (f : VideoStore -> VideoStore) : M unit :=
  modify (fun w => with_store (f (store w)) w).

Definition set_videos (vs : list VideoMetadata) : M unit :=
  set_store (fun s => mkStore vs (isLoading s) (error s) (selectedVideo s)).
Definition set_isLoading (b : bool) : M unit :=
  set_store (fun s => mkStore (videos s) b (error s) (selectedVideo s)).
Definition set_error (e : option string) : M unit :=
  set_store (fun s => mkStore (videos s) (isLoading s) e (selectedVideo s)).
Definition set_loading_no_error : M unit :=
  set_store (fun s => mkStore (videos s) true None (selectedVideo s)).

Definition setSelectedVideo (v : option VideoMetadata) : M unit :=
  set_store (fun s => mkStore (videos s) (isLoading s) (error s) v).
Definition setError (e : option string) : M unit := set_error e.

Definition get_videos : M (list VideoMetadata) := gets (fun w => videos (store w)).

Definition addVideos (newVideos : list VideoMetadata) : M unit :=
  emit (Enter_addVideos newVideos) ;;
  set_loading_no_error ;;
  try_finally
    (try_catch
       (current <- get_videos ;;
        (* Append to existing *)
        let updatedVideos := current ++ newVideos in
        AsyncStorage_setItem STORAGE_KEY (JSON_stringify updatedVideos) ;;
        set_videos updatedVideos)
       (fun e =>
          set_error (Some "Failed to save videos metadata") ;;
          console_error [Err e]))
    (set_isLoading false).

Definition clearVideos : M unit :=
  set_loading_no_error ;;
  try_finally
    (try_catch
       (AsyncStorage_removeItem STORAGE_KEY ;;
        set_videos [])
       (fun e => set_error (Some "Failed to clear videos")))
    (set_isLoading false).

(** [v.id === id] *)
Definition has_id (id : string) (v : VideoMetadata) : bool :=
  String.eqb (VideoMetadata.id v) id.

Definition deleteVideo (id : string) : M unit :=
  set_loading_no_error ;;
  try_finally
    (try_catch
       (currentVideos <- get_videos ;;
        match List.find (has_id id) currentVideos with
        | None => throw (JS.mkError "Video not found")
        | Some videoToDelete =>
            (* Remove from list first for UI responsiveness *)
            let updatedVideos := List.filter (fun v => negb (has_id id v)) currentVideos in
            set_videos updatedVideos ;;
            AsyncStorage_setItem STORAGE_KEY (JSON_stringify updatedVideos) ;;
            present <- RNFS_exists (VideoMetadata.path videoToDelete) ;;
            when present (RNFS_unlink (VideoMetadata.path videoToDelete))
        end)
       (fun e =>
          console_error [Text "Delete error:"; Err e] ;;
          set_error (Some ("Failed to delete video: " +:+ JS.message e))))
    (set_isLoading false).

(** [loadVideos] reads the persisted value back.  [JSON.parse] is a
    built-in of the runtime and is taken as a parameter, read at the type
    the store gives its result ([VideoMetadata[]]); it throws on a value
    that is not JSON. *)
Section Loading.

Variable JSON_parse : string -> JS.Error + list VideoMetadata.

Definition loadVideos : M unit :=
  set_loading_no_error ;;
  try_finally
    (try_catch
       (stored <- AsyncStorage_getItem STORAGE_KEY ;;
        if JS.truthy_string stored then
          parsed <- lift (JSON_parse (default EmptyString stored)) ;;
          set_videos parsed
        else ret tt)
       (fun e =>
          set_error (Some "Failed to load videos from storage") ;;
          console_error [Err e]))
    (set_isLoading false).

End Loading.

(** ** The [VideoList] component

    Its [useState] cell [videoToDelete] is passed in and the new value
    returned. *)

(** [handleDeletePress(video)] *)
Definition handleDeletePress (video : VideoMetadata) : option VideoMetadata := Some video.

(** [confirmDelete()] *)
Definition confirmDelete (videoToDelete : option VideoMetadata) : M (option VideoMetadata) :=
  match videoToDelete with
  | Some v => deleteVideo (VideoMetadata.id v) ;; ret None
  | None => ret videoToDelete
  end.

(** ** src/utils/fileSystem.ts *)

Definition MIN_SIZE_BYTES : Z := 5 * 1024 * 1024. (* 5MB *)
Definition MAX_SIZE_BYTES : Z := 2 * 1024 * 1024 * 1024. (* 2GB *)

Definition validateVideoSize (size : number) : option string :=
  if JS.lt size (Num MIN_SIZE_BYTES) then Some "Video is too small (<5MB)"
  else if JS.gt size (Num MAX_SIZE_BYTES) then Some "Video is too large (>2GB)"
  else None.

(** [/[^a-zA-Z0-9.]/]: the code units the regular expression leaves alone. *)
Definition is_safe (c : ascii) : bool :=
  let n := JS.code c in
  ((97 <=? n)%Z && (n <=? 122)%Z) || ((65 <=? n)%Z && (n <=? 90)%Z)
  || ((48 <=? n)%Z && (n <=? 57)%Z) || (n =? 46)%Z.

(** [fileName.replace(/[^a-zA-Z0-9.]/g, '_')].  The replacement is per
    UTF-16 code unit: an ASCII byte outside the class gives one underscore,
    the lead byte of a two- or three-byte sequence stands for one code unit,
    that of a four-byte sequence for a surrogate pair, and continuation
    bytes for nothing of their own. *)
Fixpoint sanitize (s : string) : string :=
  match s with
  | EmptyString => EmptyString
  | String c r =>
      let n := JS.code c in
      if is_safe c then String c (sanitize r)
      else if (n <? 128)%Z then "_" +:+ sanitize r
      else if (n <? 192)%Z then sanitize r
      else if (n <? 240)%Z then "_" +:+ sanitize r
      else "__" +:+ sanitize r
  end.

(** The spec's wording of the same replacement, character by character. *)
Fixpoint replace_unsafe (s : string) : string :=
  match s with
  | EmptyString => EmptyString
  | String c r => String (if is_safe c then c else "_"%char) (replace_unsafe r)
  end.

Fixpoint is_ascii (s : string) : bool :=
  match s with
  | EmptyString => true
  | String c r => (JS.code c <? 128)%Z && is_ascii r
  end.

(** [typeof stats.size === 'string' ? parseInt(stats.size) : stats.size] *)
Definition sizeBytes_of (st : StatResult) : number :=
  match stat_size st with
  | SizeString s => JS.parseInt s
  | SizeNumber n => n
  end.

(** What [DocumentPicker.pick] returns for one file. *)
Module Picked.
Record t := mk {
  uri : string;
  name : option string;
  size : option number;
}.
End Picked.

(** The standardized asset object the validation loop builds. *)
Module Asset.
Record t := mk {
  uri : string;
  name : string;
  size : number;
}.
End Asset.

Inductive PickOutcome :=
| Chosen (results : list Picked.t)
| Cancelled
| PickFailed (e : JS.Error).

Section Device.

(** [RNFS.DocumentDirectoryPath], a constant of the device. *)
Variable DocumentDirectoryPath : string.

(** Directory to store videos (the same on both platforms). *)
Definition VIDEO_DIR : string := DocumentDirectoryPath +:+ "/imported_videos".

Definition ensureVideoDirExists : M unit :=
  present <- RNFS_exists VIDEO_DIR ;;
  when (negb present) (RNFS_mkdir VIDEO_DIR).

Definition safeName_of (fileName : option string) (timestamp : Z) : string :=
  if JS.truthy_string fileName
  then sanitize (default EmptyString fileName)
  else "video_" +:+ JS.string_of_Z timestamp +:+ ".mp4".

Definition finalName_of (fileName : option string) (timestamp : Z) : string :=
  JS.string_of_Z timestamp +:+ "_" +:+ safeName_of fileName timestamp.

Definition destPath_of (fileName : option string) (timestamp : Z) : string :=
  VIDEO_DIR +:+ "/" +:+ finalName_of fileName timestamp.

(** The body of the [try] block of [copyVideoToStorage]. *)
Definition copy_and_stat (sourceUri : string) (fileName : option string)
    (timestamp : Z) : M VideoMetadata :=
  let safeName := safeName_of fileName timestamp in
  let finalName := finalName_of fileName timestamp in
  let destPath := destPath_of fileName timestamp in
  (* Decode URI if it's encoded *)
  processedUri <-
    (if JS.includes "%" sourceUri then lift (JS.decodeURIComponent sourceUri)
     else ret sourceUri) ;;
  (* Resolve actual file path before copying *)
  actualPath <-
    (if JS.startsWith "content://" processedUri then
       stat <- RNFS_stat processedUri ;;
       if JS.truthy_string (originalFilepath stat)
       then ret (default EmptyString (originalFilepath stat))
       else
         console_error [Text "[FileSystem] ❌ Cannot resolve content URI to file path"] ;;
         throw (JS.mkError "Cannot resolve real file path")
     else ret processedUri) ;;
  copyStartTime <- Date_now ;;
  RNFS_copyFile actualPath destPath ;;
  copyEndTime <- Date_now ;;
  (* Get file stats of the COPIED file to confirm size and success *)
  stats <- RNFS_stat destPath ;;
  let sizeBytes := sizeBytes_of stats in
  ret (VideoMetadata.mk finalName safeName sizeBytes destPath (Num timestamp)).

(** The [catch] block of [copyVideoToStorage]. *)
Definition cleanup_and_rethrow (destPath : string) (error : JS.Error) : M VideoMetadata :=
  console_error [Text "File copy failed:"; Err error] ;;
  (* Cleanup if copy failed partially *)
  present <- RNFS_exists destPath ;;
  when present (RNFS_unlink destPath) ;;
  throw error.

(** [copyVideoToStorage(sourceUri, fileName)].  The [console.log]
    diagnostics and the unused local [ext] have no effect on the result or
    on the device and are left out; the two [Date.now()] calls around the
    copy do consume clock readings and are kept. *)
Definition copyVideoToStorage (sourceUri : string) (fileName : option string)
    : M VideoMetadata :=
  marked (Enter_copyVideoToStorage sourceUri fileName)
    (fun r => match r with
              | Ok meta => Resolve_copyVideoToStorage sourceUri fileName meta
              | Throw e => Reject_copyVideoToStorage sourceUri fileName e
              end)
    (ensureVideoDirExists ;;
     (* Create a unique filename to avoid collisions *)
     timestamp <- Date_now ;;
     try_catch
       (copy_and_stat sourceUri fileName timestamp)
       (cleanup_and_rethrow (destPath_of fileName timestamp))).

(** ** The [SelectVideosButton] component *)

Definition set_button (f : ButtonState -> ButtonState) : M unit :=
  modify (fun w => with_button (f (button w)) w).

Definition setProcessing (b : bool) : M unit :=
  set_button (fun s => mkButton b (preparing s) (progress s)).
Definition setPreparing (b : bool) : M unit :=
  set_button (fun s => mkButton (processing s) b (progress s)).
Definition setProgress (f : Progress -> Progress) : M unit :=
  set_button (fun s => mkButton (processing s) (preparing s) (f (progress s))).

Definition newline : string := String "010"%char EmptyString.

(** 2. Validate Size: the first loop of [handleSelectVideos]. *)
Fixpoint validate_sizes (assets : list Picked.t)
    (validAssets : list Asset.t) (errors : list string) : list Asset.t * list string :=
  match assets with
  | [] => (validAssets, errors)
  | asset :: rest =>
      match Picked.uri asset with
      | EmptyString => validate_sizes rest validAssets errors
      | uri =>
          let size := JS.or_number (Picked.size asset) (Num 0) in
          let name := JS.or_string (Picked.name asset) "Video" in
          match validateVideoSize size with
          | Some sizeError =>
              validate_sizes rest validAssets (errors ++ [name +:+ ": " +:+ sizeError])
          | None =>
              validate_sizes rest (validAssets ++ [Asset.mk uri name size]) errors
          end
      end
  end.

(** The body of the second loop, for the asset at index [i]. *)
Definition import_one (i : Z) (asset : Asset.t) (successCount : Z) (errors : list string)
    : M (Z * list string) :=
  try_catch
    (setProgress (fun prev => mkProgress (i + 1) (total prev)) ;;
     (* Copy file *)
     meta <- copyVideoToStorage (Asset.uri asset) (Some (Asset.name asset)) ;;
     (* Add to store immediately *)
     addVideos [meta] ;;
     ret ((successCount + 1)%Z, errors))
    (fun e =>
       console_error [Text ("Failed to copy " +:+ Asset.name asset); Err e] ;;
       ret (successCount,
            errors ++ ["Failed to save " +:+ Asset.name asset +:+ ": " +:+ JS.message e])).

(** 3. Process valid videos SEQUENTIALLY: [for (let i = ...; i++)] over the
    assets from index [i] on. *)
Fixpoint import_loop (i : Z) (validAssets : list Asset.t) (successCount : Z)
    (errors : list string) : M (Z * list string) :=
  match validAssets with
  | [] => ret (successCount, errors)
  | asset :: rest =>
      r <- import_one i asset successCount errors ;;
      import_loop (i + 1) rest (fst r) (snd r)
  end.

Definition no_valid_message (errors : list string) : string :=
  "After filtering invalid sizes (5MB-2GB), no valid videos remain." +:+
  (if (0 <? length errors)%nat
   then newline +:+ newline +:+ "Errors:" +:+ newline +:+ JS.join newline (JS.slice0 5 errors)
        +:+ (if (5 <? length errors)%nat then "..." else EmptyString)
   else EmptyString).

Definition final_report (successCount : Z) (errors : list string) : M unit :=
  when (negb (0 <? successCount)%Z) (Alert_alert_ "Error" "Failed to save any videos.") ;;
  when ((0 <? length errors)%nat && (successCount =? 0)%Z)
    (Alert_alert_ "Error"
       ("Failed to save videos." +:+ newline +:+ newline +:+ "Errors:" +:+ newline
        +:+ JS.join newline (JS.slice0 5 errors))).

Definition handleSelectVideos (pick : PickOutcome) : M unit :=
  try_finally
    (try_catch
       (setPreparing true ;;
        setError None ;;
        match pick with
        | Cancelled => setPreparing false
        | PickFailed e => throw e
        | Chosen assets =>
            setProcessing true ;;
            setPreparing false ;;
            setProgress (fun _ => mkProgress 0 (Z.of_nat (length assets))) ;;
            let '(validAssets, errors) := validate_sizes assets [] [] in
            if (length validAssets <? 1)%nat then
              Alert_alert_ "Validation Error" (no_valid_message errors) ;;
              setProcessing false
            else
              setProgress (fun _ => mkProgress 0 (Z.of_nat (length validAssets))) ;;
              r <- import_loop 0 validAssets 0 errors ;;
              final_report (fst r) (snd r)
        end)
       (fun e =>
          setPreparing false ;;
          console_error [Err e] ;;
          Alert_alert_ "Error" ("An unexpected error occurred: " +:+ JS.message e)))
    (setProcessing false ;;
     setPreparing false ;;
     setProgress (fun _ => mkProgress 0 0)).

End Device.

(** * Vocabulary of the statements *)

(** ** Validation *)

(** The standardized object built for a picked file, and the test that
    decides whether the validation loop keeps it. *)
Definition standardize (a : Picked.t) : Asset.t :=
  Asset.mk (Picked.uri a) (JS.or_string (Picked.name a) "Video")
    (JS.or_number (Picked.size a) (Num 0)).

Definition has_uri (a : Picked.t) : bool :=
  match Picked.uri a with EmptyString => false | String _ _ => true end.

Definition size_accepted (a : Picked.t) : bool :=
  match validateVideoSize (JS.or_number (Picked.size a) (Num 0)) with
  | None => true
  | Some _ => false
  end.

(** ** Store actions *)

(** The three actions of the store that write the persisted collection. *)
Inductive StoreAction :=
| AddVideos (newVideos : list VideoMetadata)
| DeleteVideo (id : string)
| ClearVideos.

Definition perform (a : StoreAction) : M unit :=
  match a with
  | AddVideos newVideos => addVideos newVideos
  | DeleteVideo id => deleteVideo id
  | ClearVideos => clearVideos
  end.

(** ** Kinds of events *)

(** Events of the bridges and of the console, as opposed to the markers. *)
Definition plain (ev : Event) : Prop :=
  match ev with
  | Native _ _ | Console_error _ | Alert_alert _ _ => True
  | _ => False
  end.

(** Native calls and one-line console messages: what the steps before the
    [catch] block emit. *)
Definition quiet (ev : Event) : Prop :=
  match ev with
  | Native _ _ | Console_error [Text _] => True
  | _ => False
  end.

(** The marker of how a call of [copyVideoToStorage] settled. *)
Definition settled (src : string) (name : option string) (r : Result VideoMetadata) : Event :=
  match r with
  | Ok meta => Resolve_copyVideoToStorage src name meta
  | Throw e => Reject_copyVideoToStorage src name e
  end.

(** ** What the trace of a run shows *)

(** The calls of [copyVideoToStorage], in order. *)
Definition entered (t : list Event) : list (string * option string) :=
  omap (fun ev => match ev with
                  | Enter_copyVideoToStorage u n => Some (u, n)
                  | _ => None
                  end) t.

(** The records of the copies that resolved, in order. *)
Definition copied (t : list Event) : list VideoMetadata :=
  omap (fun ev => match ev with
                  | Resolve_copyVideoToStorage _ _ meta => Some meta
                  | _ => None
                  end) t.

(** The message the loop files for a copy that rejected. *)
Definition failure_of (ev : Event) : option string :=
  match ev with
  | Reject_copyVideoToStorage _ (Some n) e =>
      Some ("Failed to save " +:+ n +:+ ": " +:+ JS.message e)
  | _ => None
  end.

(** The records handed to [addVideos] whose [AsyncStorage.setItem] was not
    rejected, in order. *)
Fixpoint registered (t : list Event) : list VideoMetadata :=
  match t with
  | [] => []
  | Enter_addVideos vs :: r =>
      match r with
      | Native (AsyncStorage_setItem_ _ _) Done :: _ => vs ++ registered r
      | _ => registered r
      end
  | _ :: r => registered r
  end.

(** Boolean checks of a concrete trace. *)
Definition setItem_rejected (ev : Event) : bool :=
  match ev with
  | Native (AsyncStorage_setItem_ _ _) (Rejected _) => true
  | _ => false
  end.


(** ** Judgements on computations *)

(** [m] leaves the projection [f] of the world as it found it. *)
Definition Preserves {X A} (f : World -> X) (m : M A) : Prop :=
  forall w, f (after (m w)) = f w.

(** Projections of the world that the native bridges cannot reach: the
    store, the component state and the clock. *)
Definition DeviceBlind {X} (f : World -> X) : Prop :=
  forall fs' st' fl' w, f (mkWorld fs' st' (clock w) fl' (store w) (button w)) = f w.

(** Every event [m] emits satisfies [P]. *)
Definition Emits {A} (P : Event -> Prop) (m : M A) : Prop :=
  forall w, Forall P (events (m w)).

(** ** Sample devices for the concrete runs *)

Definition clip : VideoMetadata :=
  VideoMetadata.mk "1700000000000_clip.mp4" "clip.mp4" (Num 6291456)
    "/data/imported_videos/1700000000000_clip.mp4" (Num 1700000000000).

Definition beach : VideoMetadata :=
  VideoMetadata.mk "1700000000500_beach.mov" "beach.mov" (Num 7340032)
    "/data/imported_videos/1700000000500_beach.mov" (Num 1700000000500).

Definition party : VideoMetadata :=
  VideoMetadata.mk "1700000000900_party.mp4" "party.mp4" (Num 8388608)
    "/data/imported_videos/1700000000900_party.mp4" (Num 1700000000900).

Definition file_of (v : VideoMetadata) : string * StatResult :=
  (VideoMetadata.path v, plain_file (SizeNumber (VideoMetadata.size v))).

Definition idle_button : ButtonState := mkButton false false (mkProgress 0 0).

(** A device whose store, files and persisted value agree on [vs], with
    the given fault script. *)
Definition device (vs : list VideoMetadata) (script : list Fault) : World :=
  mkWorld (list_to_map (map file_of vs))
          {[ STORAGE_KEY := JSON_stringify vs ]}
          [] script (mkStore vs false None None) idle_button.

(** A phone with two picked files waiting under the picker's paths, an
    empty store and nothing imported yet. *)
Definition picked_party : string := "file:///picker/party%20night.mp4".
Definition picked_beach : string := "file:///picker/beach.mov".

Definition phone (readings : list Z) (script : list Fault) : World :=
  mkWorld {[ "file:///picker/party night.mp4" := plain_file (SizeNumber (Num 8388608));
             picked_beach := plain_file (SizeString "7340032") ]}
          ∅ readings script (mkStore [] false None None) idle_button.

Definition party_asset : Asset.t := Asset.mk picked_party "party night.mp4" (Num 8388608).
Definition beach_asset : Asset.t := Asset.mk picked_beach "beach.mov" (Num 7340032).

Definition party_record : VideoMetadata :=
  VideoMetadata.mk "1700000001000_party_night.mp4" "party_night.mp4" (Num 8388608)
    "/data/imported_videos/1700000001000_party_night.mp4" (Num 1700000001000).

Definition beach_record : VideoMetadata :=
  VideoMetadata.mk "1700000002000_beach.mov" "beach.mov" (Num 7340032)
    "/data/imported_videos/1700000002000_beach.mov" (Num 1700000002000).

Definition readings : list Z :=
  [1700000001000; 1700000001001; 1700000001900;
   1700000002000; 1700000002001; 1700000002900]%Z.

Definition EIO : JS.Error := JS.mkError "EIO: i/o error".
Definition EPERM : JS.Error := JS.mkError "EPERM: operation not permitted".

Definition two_imports : Run (Z * list string) :=
  import_loop "/data" 0 [party_asset; beach_asset] 0 [] (phone readings []).

(** ** Vocabulary of the further properties *)
(** The state the store is created with. *)
Definition initial_store : VideoStore := mkStore [] false None None.

(** The application is closed and started again: the store is created
    anew, the device keeps its files and its persisted values. *)
Definition restart (w : World) : World := with_store initial_store w.

(** A [JSON.parse] that reads the serialization of [vs] back and throws on
    every other text. *)
Definition parse_only (vs : list VideoMetadata) (s : string) : JS.Error + list VideoMetadata :=
  if String.eqb s (JSON_stringify vs) then inr vs
  else inl (JS.mkError "SyntaxError: JSON Parse error").

(** What the device holds at the path [p]. *)
Definition fs_at (p : string) (w : World) : option StatResult := fs w !! p.

(** Events other than alerts: what the user is not shown. *)
Definition silent (ev : Event) : Prop :=
  match ev with
  | Alert_alert _ _ => False
  | _ => True
  end.

(** Events other than calls into the native bridges. *)
Definition offline (ev : Event) : Prop :=
  match ev with
  | Native _ _ => False
  | _ => True
  end.

(** The assets a pick leaves to import. *)
Definition importable (pick : PickOutcome) : list Asset.t :=
  match pick with
  | Chosen assets => fst (validate_sizes assets [] [])
  | _ => []
  end.

(** ** Names *)

Definition is_digit (c : ascii) : bool := (48 <=? JS.code c)%Z && (JS.code c <=? 57)%Z.

(** The characters an id is made of: those the replacement leaves alone,
    the underscore it writes, and the sign of a negative clock reading. *)
Definition id_char (c : ascii) : bool :=
  is_safe c || Ascii.eqb c "_" || Ascii.eqb c "-".

Fixpoint all_chars (P : ascii -> bool) (s : string) : bool :=
  match s with
  | EmptyString => true
  | String c r => P c && all_chars P r
  end.

(** The message the validation loop files for a picked file, if any. *)
Definition rejection (a : Picked.t) : option string :=
  if has_uri a then
    match validateVideoSize (JS.or_number (Picked.size a) (Num 0)) with
    | Some sizeError => Some (JS.or_string (Picked.name a) "Video" +:+ ": " +:+ sizeError)
    | None => None
    end
  else None.

(** A size that [asset.size || 0] reads as [0]. *)
Definition falsy_size (n : option number) : bool :=
  match n with
  | Some (Num z) => (z =? 0)%Z
  | _ => true
  end.

(** A device on which [clip] is the selected video. *)
Definition watching (vs : list VideoMetadata) (v : VideoMetadata) (script : list Fault) : World :=
  with_store (mkStore vs false None (Some v)) (device vs script).

(** A picked file below the minimum size, and a source URI with a broken
    escape sequence. *)
Definition small_pick : Picked.t :=
  Picked.mk "file:///picker/small.mp4" (Some "small.mp4") (Some (Num 1024)).

Definition broken_uri : string := "file:///picker/bad%ZZ.mov".

(** * Properties *)

(** ** Size validation *)

Lemma validateVideoSize_small (z : Z) :
  validateVideoSize (Num z) = Some "Video is too small (<5MB)" <-> (z < 5 * 1024 * 1024)%Z.
Proof.
  unfold validateVideoSize, JS.gt, JS.lt, MIN_SIZE_BYTES, MAX_SIZE_BYTES.
  destruct (Z.ltb_spec z (5 * 1024 * 1024)); [tauto|].
  destruct (Z.ltb_spec (2 * 1024 * 1024 * 1024) z); split; intros; try discriminate; lia.
Qed.

Lemma validateVideoSize_large (z : Z) :
  validateVideoSize (Num z) = Some "Video is too large (>2GB)" <-> (z > 2 * 1024 * 1024 * 1024)%Z.
Proof.
  unfold validateVideoSize, JS.gt, JS.lt, MIN_SIZE_BYTES, MAX_SIZE_BYTES.
  destruct (Z.ltb_spec z (5 * 1024 * 1024)).
  - split; intros; try discriminate; lia.
  - destruct (Z.ltb_spec (2 * 1024 * 1024 * 1024) z); split; intros; try discriminate; try lia; auto.
Qed.

Lemma validateVideoSize_null (z : Z) :
  validateVideoSize (Num z) = None <->
  (5 * 1024 * 1024 <= z <= 2 * 1024 * 1024 * 1024)%Z.
Proof.
  unfold validateVideoSize, JS.gt, JS.lt, MIN_SIZE_BYTES, MAX_SIZE_BYTES.
  destruct (Z.ltb_spec z (5 * 1024 * 1024)).
  - split; intros; try discriminate; lia.
  - destruct (Z.ltb_spec (2 * 1024 * 1024 * 1024) z); split; intros; try discriminate; try lia; auto.
Qed.

Lemma validate_sizes_valid (assets : list Picked.t) (va : list Asset.t) (errs : list string) :
  fst (validate_sizes assets va errs) =
  va ++ map standardize (List.filter (fun a => has_uri a && size_accepted a) assets).
Proof.
  revert va errs. induction assets as [|a rest IH]; intros va errs; cbn [validate_sizes List.filter].
  - cbn. by rewrite app_nil_r.
  - unfold has_uri at 1, size_accepted at 1.
    destruct (Picked.uri a) as [|c u] eqn:U; [apply IH|].
    destruct (validateVideoSize _) eqn:V; cbn [andb]; [apply IH|].
    rewrite IH, <- app_assoc. cbn [map app].
    do 2 f_equal. unfold standardize. by rewrite U.
Qed.

(** C7 (as amended): [validateVideoSize] answers "too small" exactly below
    5 MiB, "too large" exactly above 2 GiB and [null] exactly in between;
    the validation loop keeps, in batch order, the picked files that have a
    non-empty uri and whose size ([0] when the picker gave none) passes
    [validateVideoSize], and skips the others. *)
Theorem size_check_and_admission :
  (forall z : Z,
     (validateVideoSize (Num z) = Some "Video is too small (<5MB)"
        <-> (z < 5 * 1024 * 1024)%Z) /\
     (validateVideoSize (Num z) = Some "Video is too large (>2GB)"
        <-> (z > 2 * 1024 * 1024 * 1024)%Z) /\
     (validateVideoSize (Num z) = None
        <-> (5 * 1024 * 1024 <= z <= 2 * 1024 * 1024 * 1024)%Z)) /\
  (forall assets : list Picked.t,
     fst (validate_sizes assets [] []) =
     map standardize (List.filter (fun a => has_uri a && size_accepted a) assets)).
Proof.
  split.
  - intros z. split; [apply validateVideoSize_small|].
    split; [apply validateVideoSize_large | apply validateVideoSize_null].
  - intros assets. apply (validate_sizes_valid assets [] []).
Qed.

(** C7, as stated, fails for a picked file without a uri: its size passes
    [validateVideoSize], yet the loop skips it. *)
Lemma admission_without_uri :
  let a := Picked.mk EmptyString (Some "clip.mp4") (Some (Num 10485760)) in
  validateVideoSize (JS.or_number (Picked.size a) (Num 0)) = None /\
  fst (validate_sizes [a] [] []) = [].
Proof. split; reflexivity. Qed.

(** ** Reasoning about runs *)

(** *** What a computation leaves alone *)

Section Preserves.
Context {X : Type} (f : World -> X).

Lemma Preserves_ret {A} (a : A) : Preserves f (ret a).
Proof. by intros w. Qed.

Lemma Preserves_throw {A} (e : JS.Error) : Preserves f (@throw A e).
Proof. by intros w. Qed.

Lemma Preserves_emit (ev : Event) : Preserves f (emit ev).
Proof. by intros w. Qed.

Lemma Preserves_gets {A} (g : World -> A) : Preserves f (gets g).
Proof. by intros w. Qed.

Lemma Preserves_bind {A B} (m : M A) (k : A -> M B) :
  Preserves f m -> (forall a, Preserves f (k a)) -> Preserves f (bind m k).
Proof.
  intros Hm Hk w. specialize (Hm w). unfold bind.
  destruct (m w) as [[a|e] w1 t1]; cbn in *; [|done].
  specialize (Hk a w1). destruct (k a w1); cbn in *. congruence.
Qed.

Lemma Preserves_try_catch {A} (m : M A) (h : JS.Error -> M A) :
  Preserves f m -> (forall e, Preserves f (h e)) -> Preserves f (try_catch m h).
Proof.
  intros Hm Hh w. specialize (Hm w). unfold try_catch.
  destruct (m w) as [[a|e] w1 t1]; cbn in *; [done|].
  specialize (Hh e w1). destruct (h e w1); cbn in *. congruence.
Qed.

Lemma Preserves_try_finally {A} (m : M A) (fin : M unit) :
  Preserves f m -> Preserves f fin -> Preserves f (try_finally m fin).
Proof.
  intros Hm Hf w. specialize (Hm w). unfold try_finally.
  destruct (m w) as [r w1 t1]; cbn in *.
  specialize (Hf w1). destruct (fin w1) as [[u|e] w2 t2]; cbn in *; congruence.
Qed.

Lemma Preserves_when (b : bool) (m : M unit) : Preserves f m -> Preserves f (when b m).
Proof. destruct b; [done | intros _; by intros w]. Qed.

Lemma Preserves_lift {A} (r : JS.Error + A) : Preserves f (lift r).
Proof. destruct r; by intros w. Qed.

Lemma Preserves_marked {A} (enter : Event) (settle : Result A -> Event) (m : M A) :
  Preserves f m -> Preserves f (marked enter settle m).
Proof. intros Hm w. specialize (Hm w). unfold marked. by destruct (m w). Qed.

Lemma Preserves_native {A} (c : Call) (reply : A -> Reply)
    (act : World -> Result A * World) (partial : Z -> World -> World) :
  (forall fl w, f (with_faults fl w) = f w) ->
  (forall w, f (snd (act w)) = f w) ->
  (forall n w, f (partial n w) = f w) ->
  Preserves f (native c reply act partial).
Proof.
  intros Hfl Hact Hpart w. unfold native, next_fault.
  destruct (faults w) as [|[|e|e n] fl].
  - specialize (Hact w). destruct (act w); cbn in *. done.
  - specialize (Hact (with_faults fl w)). destruct (act _); cbn in *. by rewrite Hact.
  - cbn. apply Hfl.
  - cbn. by rewrite Hpart.
Qed.

End Preserves.

Lemma DeviceBlind_store : DeviceBlind store.
Proof. by intros ? ? ? ?. Qed.
Lemma DeviceBlind_clock : DeviceBlind clock.
Proof. by intros ? ? ? ?. Qed.
Lemma DeviceBlind_button : DeviceBlind button.
Proof. by intros ? ? ? ?. Qed.
Lemma DeviceBlind_videos : DeviceBlind (fun w => videos (store w)).
Proof. by intros ? ? ? ?. Qed.

Ltac device_blind H :=
  apply Preserves_native;
  [ intros fl w; apply (H (fs w) (storage w) fl w)
  | intros w; cbn;
    repeat match goal with |- context [match ?o with Some _ => _ | None => _ end] => destruct o end;
    cbn; first [ reflexivity | apply (H _ _ _ w) ]
  | intros n w; first [ reflexivity | apply (H _ _ _ w) ] ].

Section DeviceBlind.
Context {X : Type} (f : World -> X) (Hf : DeviceBlind f).

Lemma Preserves_RNFS_exists p : Preserves f (RNFS_exists p).
Proof. device_blind Hf. Qed.
Lemma Preserves_RNFS_mkdir p : Preserves f (RNFS_mkdir p).
Proof. device_blind Hf. Qed.
Lemma Preserves_RNFS_stat p : Preserves f (RNFS_stat p).
Proof. device_blind Hf. Qed.
Lemma Preserves_RNFS_copyFile s d : Preserves f (RNFS_copyFile s d).
Proof. device_blind Hf. Qed.
Lemma Preserves_RNFS_unlink p : Preserves f (RNFS_unlink p).
Proof. device_blind Hf. Qed.
Lemma Preserves_getItem k : Preserves f (AsyncStorage_getItem k).
Proof. device_blind Hf. Qed.
Lemma Preserves_setItem k v : Preserves f (AsyncStorage_setItem k v).
Proof. device_blind Hf. Qed.
Lemma Preserves_removeItem k : Preserves f (AsyncStorage_removeItem k).
Proof. device_blind Hf. Qed.

End DeviceBlind.

Lemma Preserves_Date_now_store : Preserves store Date_now.
Proof. intros w. unfold Date_now. by destruct (clock w). Qed.

Lemma Preserves_console_error {X} (f : World -> X) args : Preserves f (console_error args).
Proof. by intros w. Qed.

(** ** The store *)

#[local] Arguments JSON_stringify : simpl never.
#[local] Arguments String.append : simpl never.
#[local] Arguments lookup : simpl never.
#[local] Arguments insert : simpl never.
#[local] Arguments delete : simpl never.

Ltac crunch :=
  repeat (cbn;
    match goal with
    | E : ?m !! ?k = _ |- context [?m !! ?k] => rewrite E
    | |- context [match ?fl with [] => _ | _ :: _ => _ end] =>
        is_var fl; destruct fl as [|[|?|? ?] fl]
    | |- context [match ?m !! ?k with Some _ => _ | None => _ end] =>
        let E := fresh "E" in destruct (m !! k) eqn:E
    end);
  cbn.

Ltac unfold_store :=
  unfold addVideos, clearVideos, deleteVideo, bind, try_finally, try_catch, when,
    AsyncStorage_setItem, AsyncStorage_removeItem, RNFS_exists, RNFS_unlink,
    native, next_fault.

(** What a call of [addVideos] does: it always resolves, and appends
    exactly when [AsyncStorage.setItem] did not reject. *)
Lemma addVideos_run (newVideos : list VideoMetadata) (w : World) :
  let r := addVideos newVideos w in
  let updated := videos (store w) ++ newVideos in
  result r = Ok tt /\ isLoading (store (after r)) = false /\
  ((events r = [Enter_addVideos newVideos;
                Native (AsyncStorage_setItem_ STORAGE_KEY (JSON_stringify updated)) Done] /\
    videos (store (after r)) = updated /\
    error (store (after r)) = None /\
    storage (after r) !! STORAGE_KEY = Some (JSON_stringify updated))
   \/
   (exists e,
    events r = [Enter_addVideos newVideos;
                Native (AsyncStorage_setItem_ STORAGE_KEY (JSON_stringify updated)) (Rejected e);
                Console_error [Err e]] /\
    videos (store (after r)) = videos (store w) /\
    error (store (after r)) = Some "Failed to save videos metadata" /\
    storage (after r) = storage w)).
Proof.
  destruct w as [f s c fl st b]. unfold_store. crunch.
  all: repeat split; try reflexivity.
  all: first [ left; repeat split; try reflexivity; apply lookup_insert_eq
             | right; eexists; repeat split; reflexivity ].
Qed.

(** What [deleteVideo] does to the list, whatever the device does. *)
Lemma deleteVideo_videos (id : string) (w : World) :
  videos (store (after (deleteVideo id w))) =
    match List.find (has_id id) (videos (store w)) with
    | Some _ => List.filter (fun v => negb (has_id id v)) (videos (store w))
    | None => videos (store w)
    end.
Proof.
  destruct w as [f s c fl st b]. unfold_store. cbn.
  destruct (List.find (has_id id) (videos st)) as [v|] eqn:F; [|reflexivity].
  crunch; reflexivity.
Qed.

Lemma deleteVideo_unknown (id : string) (w : World) :
  List.find (has_id id) (videos (store w)) = None ->
  deleteVideo id w =
    mkRun (Ok tt)
      (with_store (mkStore (videos (store w)) false
                     (Some "Failed to delete video: Video not found")
                     (selectedVideo (store w))) w)
      [Console_error [Text "Delete error:"; Err (JS.mkError "Video not found")]].
Proof.
  destruct w as [f s c fl st b]. unfold_store. cbn. intros ->. reflexivity.
Qed.

Lemma deleteVideo_success (id : string) (w : World) :
  error (store (after (deleteVideo id w))) = None ->
  storage (after (deleteVideo id w)) !! STORAGE_KEY =
    Some (JSON_stringify (videos (store (after (deleteVideo id w))))).
Proof.
  destruct w as [f s c fl st b]. unfold_store. cbn.
  destruct (List.find (has_id id) (videos st)) as [v|] eqn:F; [|discriminate].
  crunch; intros H; try discriminate H; apply lookup_insert_eq.
Qed.

Lemma clearVideos_success (w : World) :
  error (store (after (clearVideos w))) = None ->
  storage (after (clearVideos w)) !! STORAGE_KEY = None /\
  videos (store (after (clearVideos w))) = [].
Proof.
  destruct w as [f s c fl st b]. unfold_store. crunch.
  all: intros H; try discriminate H; split; try reflexivity; apply lookup_delete_eq.
Qed.

Lemma has_id_true (id : string) (v : VideoMetadata) :
  has_id id v = true <-> VideoMetadata.id v = id.
Proof. unfold has_id. apply String.eqb_eq. Qed.

Lemma has_id_false (id : string) (v : VideoMetadata) :
  has_id id v = false <-> VideoMetadata.id v <> id.
Proof. unfold has_id. apply String.eqb_neq. Qed.

Lemma filter_others (id : string) (l : list VideoMetadata) :
  Forall (fun v => VideoMetadata.id v <> id) l ->
  List.filter (fun v => negb (has_id id v)) l = l.
Proof.
  induction 1 as [|v l Hv _ IH]; [done|]. cbn.
  apply has_id_false in Hv. rewrite Hv. cbn. by rewrite IH.
Qed.

Lemma find_others (id : string) (l : list VideoMetadata) :
  Forall (fun v => VideoMetadata.id v <> id) l -> List.find (has_id id) l = None.
Proof.
  induction 1 as [|v l Hv _ IH]; [done|]. cbn.
  apply has_id_false in Hv. by rewrite Hv.
Qed.

Lemma filter_single (id : string) (l1 l2 : list VideoMetadata) (r : VideoMetadata) :
  VideoMetadata.id r = id ->
  Forall (fun v => VideoMetadata.id v <> id) (l1 ++ l2) ->
  List.filter (fun v => negb (has_id id v)) (l1 ++ r :: l2) = l1 ++ l2.
Proof.
  intros Hr H. apply Forall_app in H as [H1 H2].
  rewrite List.filter_app. cbn. apply has_id_true in Hr. rewrite Hr. cbn.
  by rewrite !filter_others.
Qed.

Lemma find_present (id : string) (l1 l2 : list VideoMetadata) (r : VideoMetadata) :
  VideoMetadata.id r = id ->
  exists v, List.find (has_id id) (l1 ++ r :: l2) = Some v.
Proof.
  intros Hr. induction l1 as [|a l1 IH]; cbn.
  - apply has_id_true in Hr. rewrite Hr. eauto.
  - destruct (has_id id a); eauto.
Qed.

(** C5: a successful [addVideos(newVideos)] leaves the list equal to the
    existing list followed by [newVideos]: the records that were there keep
    their fields and their order, and the new ones come after them in the
    order given. *)
Theorem addVideos_appends (newVideos : list VideoMetadata) (w : World) :
  error (store (after (addVideos newVideos w))) = None ->
  videos (store (after (addVideos newVideos w))) = videos (store w) ++ newVideos.
Proof.
  intros H. destruct (addVideos_run newVideos w) as (_ & _ & [(_ & Hv & _) | (e & _ & _ & He & _)]).
  - exact Hv.
  - rewrite He in H. discriminate.
Qed.

(** C8: when exactly one record of the list carries [id], [deleteVideo(id)]
    leaves the list with that record taken out and every other record in
    place, unchanged and in the same order, whatever the device does. *)
Theorem deleteVideo_removes_only_match (id : string) (w : World)
    (l1 l2 : list VideoMetadata) (r : VideoMetadata) :
  videos (store w) = l1 ++ r :: l2 ->
  VideoMetadata.id r = id ->
  Forall (fun v => VideoMetadata.id v <> id) (l1 ++ l2) ->
  videos (store (after (deleteVideo id w))) = l1 ++ l2.
Proof.
  intros Hl Hr Ho. rewrite deleteVideo_videos, Hl.
  destruct (find_present id l1 l2 r Hr) as [v ->]. by apply filter_single.
Qed.

(** C10: [deleteVideo] with an id that no record carries leaves the list,
    the persisted value and the files as they were, sets the error field to
    the message made of 'Failed to delete video', a colon and 'Video not
    found', and ends with [isLoading] false. *)
Theorem deleteVideo_unknown_id (id : string) (w : World) :
  Forall (fun v => VideoMetadata.id v <> id) (videos (store w)) ->
  videos (store (after (deleteVideo id w))) = videos (store w) /\
  storage (after (deleteVideo id w)) = storage w /\
  fs (after (deleteVideo id w)) = fs w /\
  error (store (after (deleteVideo id w))) =
    Some ("Failed to delete video" +:+ ": " +:+ "Video not found") /\
  isLoading (store (after (deleteVideo id w))) = false.
Proof.
  intros H. rewrite (deleteVideo_unknown id w (find_others id _ H)). by cbn.
Qed.

(** C4 (as amended): after a successful [addVideos] or [deleteVideo] the
    value stored under '@start_poc_videos' is the JSON serialization of the
    store's list; after a successful [clearVideos] the list is empty and
    the key holds no value at all. *)
Theorem persisted_mirrors_store (a : StoreAction) (w : World) :
  error (store (after (perform a w))) = None ->
  match a with
  | ClearVideos =>
      storage (after (perform a w)) !! STORAGE_KEY = None /\
      videos (store (after (perform a w))) = []
  | _ =>
      storage (after (perform a w)) !! STORAGE_KEY =
        Some (JSON_stringify (videos (store (after (perform a w)))))
  end.
Proof.
  destruct a as [newVideos|id|]; cbn [perform]; intros H.
  - destruct (addVideos_run newVideos w) as (_ & _ & [(_ & Hv & _ & Hs) | (e & _ & _ & He & _)]).
    + by rewrite Hv.
    + rewrite He in H. discriminate.
  - by apply deleteVideo_success.
  - by apply clearVideos_success.
Qed.

Lemma addVideos_appends_witness :
  error (store (after (addVideos [party] (device [clip; beach] [])))) = None /\
  videos (store (after (addVideos [party] (device [clip; beach] [])))) = [clip; beach; party].
Proof.
  split; [reflexivity|].
  apply (addVideos_appends [party] (device [clip; beach] [])). reflexivity.
Defined.

Lemma deleteVideo_removes_only_match_witness :
  videos (store (after (deleteVideo "1700000000500_beach.mov"
                          (device [clip; beach; party] [Healthy; Rejects ENOENT]))))
  = [clip; party].
Proof.
  apply (deleteVideo_removes_only_match "1700000000500_beach.mov"
           (device [clip; beach; party] [Healthy; Rejects ENOENT]) [clip] [party] beach).
  - reflexivity.
  - reflexivity.
  - repeat constructor; discriminate.
Defined.

Lemma deleteVideo_unknown_id_witness :
  let r := deleteVideo "1700000000900_party.mp4" (device [clip; beach] [Rejects ENOENT]) in
  videos (store (after r)) = [clip; beach] /\
  storage (after r) = storage (device [clip; beach] [Rejects ENOENT]) /\
  fs (after r) = fs (device [clip; beach] [Rejects ENOENT]) /\
  error (store (after r)) = Some "Failed to delete video: Video not found" /\
  isLoading (store (after r)) = false.
Proof.
  apply (deleteVideo_unknown_id "1700000000900_party.mp4" (device [clip; beach] [Rejects ENOENT])).
  repeat constructor; discriminate.
Defined.

Lemma persisted_mirrors_store_witness :
  error (store (after (perform (DeleteVideo "1700000000000_clip.mp4")
                         (device [clip; beach] [])))) = None /\
  storage (after (perform (DeleteVideo "1700000000000_clip.mp4") (device [clip; beach] [])))
    !! STORAGE_KEY = Some (JSON_stringify [beach]).
Proof.
  split; [reflexivity|].
  apply (persisted_mirrors_store (DeleteVideo "1700000000000_clip.mp4")
           (device [clip; beach] [])).
  reflexivity.
Defined.

(** C4, as stated, fails for [clearVideos]: it completes without error and
    empties the list, but the key is removed; the value stored under it is
    not the serialization of the empty list. *)
Lemma clearVideos_removes_key :
  let r := clearVideos (device [clip; beach] []) in
  error (store (after r)) = None /\
  videos (store (after r)) = [] /\
  storage (after r) !! STORAGE_KEY = None /\
  storage (after r) !! STORAGE_KEY <> Some (JSON_stringify (videos (store (after r)))).
Proof. repeat split; try reflexivity. vm_compute. discriminate. Qed.

(** C2: [deleteVideo] is not transactional.  There is an execution in
    which a record with the given id is in the list, the unlink of its file
    is rejected, and yet the record is gone from the list and from the
    persisted collection when the call has settled, while its file is
    still on the device. *)
Theorem deleteVideo_not_transactional :
  exists (w : World) (r : VideoMetadata) (e : JS.Error),
    In r (videos (store w)) /\
    is_Some (fs w !! VideoMetadata.path r) /\
    let run := deleteVideo (VideoMetadata.id r) w in
    result run = Ok tt /\
    In (Native (RNFS_unlink_ (VideoMetadata.path r)) (Rejected e)) (events run) /\
    ~ In r (videos (store (after run))) /\
    videos (store (after run)) =
      List.filter (fun v => negb (has_id (VideoMetadata.id r) v)) (videos (store w)) /\
    storage (after run) !! STORAGE_KEY = Some (JSON_stringify (videos (store (after run)))) /\
    is_Some (fs (after run) !! VideoMetadata.path r).
Proof.
  exists (device [clip; beach] [Healthy; Healthy; Rejects EPERM]), beach, EPERM.
  split; [cbn; auto|]. split; [by eexists|].
  cbv zeta. split; [reflexivity|]. split; [vm_compute; auto|].
  split; [vm_compute; intros [H|[]]; discriminate H|].
  split; [reflexivity|]. split; [reflexivity|]. by eexists.
Qed.

(** *** What a computation emits *)

Section Emits.
Context (P : Event -> Prop).

Lemma Emits_ret {A} (a : A) : Emits P (ret a).
Proof. intros w. constructor. Qed.

Lemma Emits_throw {A} (e : JS.Error) : Emits P (@throw A e).
Proof. intros w. constructor. Qed.

Lemma Emits_modify (g : World -> World) : Emits P (modify g).
Proof. intros w. constructor. Qed.

Lemma Emits_gets {A} (g : World -> A) : Emits P (gets g).
Proof. intros w. constructor. Qed.

Lemma Emits_emit (ev : Event) : P ev -> Emits P (emit ev).
Proof. intros H w. by repeat constructor. Qed.

Lemma Emits_Date_now : Emits P Date_now.
Proof. intros w. unfold Date_now. destruct (clock w); constructor. Qed.

Lemma Emits_bind {A B} (m : M A) (k : A -> M B) :
  Emits P m -> (forall a, Emits P (k a)) -> Emits P (bind m k).
Proof.
  intros Hm Hk w. specialize (Hm w). unfold bind.
  destruct (m w) as [[a|e] w1 t1]; cbn in *; [|done].
  specialize (Hk a w1). destruct (k a w1); cbn in *. by apply Forall_app.
Qed.

Lemma Emits_try_catch {A} (m : M A) (h : JS.Error -> M A) :
  Emits P m -> (forall e, Emits P (h e)) -> Emits P (try_catch m h).
Proof.
  intros Hm Hh w. specialize (Hm w). unfold try_catch.
  destruct (m w) as [[a|e] w1 t1]; cbn in *; [done|].
  specialize (Hh e w1). destruct (h e w1); cbn in *. by apply Forall_app.
Qed.

Lemma Emits_when (b : bool) (m : M unit) : Emits P m -> Emits P (when b m).
Proof. destruct b; [done | intros _ w; constructor]. Qed.

Lemma Emits_lift {A} (r : JS.Error + A) : Emits P (lift r).
Proof. destruct r; intros w; constructor. Qed.

Lemma Emits_native {A} (c : Call) (reply : A -> Reply)
    (act : World -> Result A * World) (partial : Z -> World -> World) :
  (forall r, P (Native c r)) -> Emits P (native c reply act partial).
Proof.
  intros H w. unfold native, next_fault.
  destruct (faults w) as [|[|e|e n] fl]; try destruct (act _); cbn; by repeat constructor.
Qed.

End Emits.

(** A native call that returns has replied with what it returns. *)
Lemma native_Ok_inv {A} (c : Call) (reply : A -> Reply)
    (act : World -> Result A * World) (partial : Z -> World -> World) (w : World) (a : A) :
  result (native c reply act partial w) = Ok a ->
  events (native c reply act partial w) = [Native c (reply a)].
Proof.
  unfold native, next_fault.
  destruct (faults w) as [|[|e|e n] fl]; try destruct (act _) as [[a'|e'] w']; cbn;
    intros H; by inversion H.
Qed.

Lemma Date_now_run (w : World) :
  result (Date_now w) = Ok (hd 0%Z (clock w)) /\ events (Date_now w) = [] /\
  fs (after (Date_now w)) = fs w.
Proof. unfold Date_now. by destruct (clock w). Qed.

(** ** [copyVideoToStorage] *)

Section DeviceFacts.
Variable D : string.

Lemma ensureVideoDirExists_clock : Preserves clock (ensureVideoDirExists D).
Proof.
  apply Preserves_bind; [apply Preserves_RNFS_exists, DeviceBlind_clock|].
  intros b. apply Preserves_when, Preserves_RNFS_mkdir, DeviceBlind_clock.
Qed.

Lemma ensureVideoDirExists_store : Preserves store (ensureVideoDirExists D).
Proof.
  apply Preserves_bind; [apply Preserves_RNFS_exists, DeviceBlind_store|].
  intros b. apply Preserves_when, Preserves_RNFS_mkdir, DeviceBlind_store.
Qed.

Lemma copy_and_stat_store src name ts : Preserves store (copy_and_stat D src name ts).
Proof.
  unfold copy_and_stat.
  apply Preserves_bind.
  { destruct (JS.includes _ _); [apply Preserves_lift | apply Preserves_ret]. }
  intros processed. apply Preserves_bind.
  { destruct (JS.startsWith _ _); [|apply Preserves_ret].
    apply Preserves_bind; [apply Preserves_RNFS_stat, DeviceBlind_store|].
    intros st. destruct (JS.truthy_string _); [apply Preserves_ret|].
    apply Preserves_bind; [apply Preserves_console_error | intros; apply Preserves_throw]. }
  intros actual. apply Preserves_bind; [apply Preserves_Date_now_store|]. intros _.
  apply Preserves_bind; [apply Preserves_RNFS_copyFile, DeviceBlind_store|]. intros _.
  apply Preserves_bind; [apply Preserves_Date_now_store|]. intros _.
  apply Preserves_bind; [apply Preserves_RNFS_stat, DeviceBlind_store|]. intros st.
  apply Preserves_ret.
Qed.

Lemma cleanup_and_rethrow_store dest e : Preserves store (cleanup_and_rethrow dest e).
Proof.
  unfold cleanup_and_rethrow.
  apply Preserves_bind; [apply Preserves_console_error|]. intros _.
  apply Preserves_bind; [apply Preserves_RNFS_exists, DeviceBlind_store|]. intros b.
  apply Preserves_bind; [apply Preserves_when, Preserves_RNFS_unlink, DeviceBlind_store|].
  intros _. apply Preserves_throw.
Qed.

End DeviceFacts.

Lemma native_run_Ok {A} (c : Call) (reply : A -> Reply)
    (act : World -> Result A * World) (partial : Z -> World -> World)
    (w w' : World) (a : A) (t : list Event) :
  native c reply act partial w = mkRun (Ok a) w' t -> t = [Native c (reply a)].
Proof.
  intros E. pose proof (native_Ok_inv c reply act partial w a) as H.
  rewrite E in H. exact (H eq_refl).
Qed.

Lemma Date_now_silent (w w' : World) (r : Result Z) (t : list Event) :
  Date_now w = mkRun r w' t -> t = [].
Proof. unfold Date_now. destruct (clock w); intros H; by inversion H. Qed.

Section CopyFacts.
Variable D : string.

(** When the [try] block returns, the copy and the stat of the copy were
    its last two native calls, and the record is built from them. *)
Lemma copy_and_stat_Ok (src : string) (name : option string) (ts : Z) (w w' : World)
    (meta : VideoMetadata) (t : list Event) :
  copy_and_stat D src name ts w = mkRun (Ok meta) w' t ->
  exists (actual : string) (st : StatResult) (pre : list Event),
    t = pre ++ [Native (RNFS_copyFile_ actual (destPath_of D name ts)) Done;
                Native (RNFS_stat_ (destPath_of D name ts)) (Stat st)] /\
    meta = VideoMetadata.mk (finalName_of name ts) (safeName_of name ts)
             (sizeBytes_of st) (destPath_of D name ts) (Num ts).
Proof.
  unfold copy_and_stat.
  set (decode := if JS.includes _ _ then _ else _).
  unfold bind at 1. destruct (decode w) as [[processed|e] w1 t1]; [|discriminate].
  set (resolve := if JS.startsWith _ _ then _ else _).
  unfold bind at 1. destruct (resolve w1) as [[actual|e] w2 t2]; [|discriminate].
  unfold bind at 1. destruct (Date_now w2) as [[c1|e] w3 t3] eqn:E3; [|discriminate].
  unfold bind at 1.
  destruct (RNFS_copyFile actual _ w3) as [[u|e] w4 t4] eqn:E4; [|discriminate].
  unfold bind at 1. destruct (Date_now w4) as [[c2|e] w5 t5] eqn:E5; [|discriminate].
  unfold bind at 1.
  destruct (RNFS_stat _ w5) as [[st|e] w6 t6] eqn:E6; [|discriminate].
  cbn. intros H. inversion H; subst; clear H.
  apply Date_now_silent in E3, E5. apply native_run_Ok in E4, E6. subst.
  exists actual, st, (t1 ++ t2). split; [|reflexivity].
  cbn. by rewrite <- app_assoc.
Qed.

(** The [catch] block: unless one of its own two native calls is rejected,
    it leaves nothing at the destination and rethrows the error it caught. *)
Lemma cleanup_and_rethrow_run (dest : string) (e : JS.Error) (w : World) :
  let r := cleanup_and_rethrow dest e w in
  exists rest,
    events r = Console_error [Text "File copy failed:"; Err e] :: rest /\
    Forall (fun ev => exists c rp, ev = Native c rp) rest /\
    (exists e', result r = Throw e') /\
    ((result r = Throw e /\ fs (after r) !! dest = None) \/
     (exists e', In (Native (RNFS_exists_ dest) (Rejected e')) rest) \/
     (exists e', In (Native (RNFS_unlink_ dest) (Rejected e')) rest)).
Proof.
  destruct w as [f s c fl st b].
  unfold cleanup_and_rethrow, bind, when, console_error, emit, throw, ret,
    RNFS_exists, RNFS_unlink, native, next_fault.
  crunch.
  all: eexists; split; [reflexivity|]; split; [repeat constructor; eauto|].
  all: split; [eexists; reflexivity|].
  all: try (left; split; [reflexivity|]; cbn;
            first [reflexivity | assumption | apply lookup_delete_eq]; fail).
  all: try (right; left; eexists; cbn; eauto; fail).
  all: try (right; right; eexists; cbn; eauto; fail).
Qed.

Lemma quiet_plain (ev : Event) : quiet ev -> plain ev.
Proof. by destruct ev. Qed.

Lemma quiet_not_catch_log (evs : list Event) (e : JS.Error) :
  Forall quiet evs -> ~ In (Console_error [Text "File copy failed:"; Err e]) evs.
Proof.
  intros H Hin. rewrite Forall_forall in H. apply list_elem_of_In in Hin.
  by apply H in Hin.
Qed.

Lemma native_plain (evs : list Event) :
  Forall (fun ev => exists c rp, ev = Native c rp) evs -> Forall plain evs.
Proof. intros H. eapply Forall_impl; [exact H|]. by intros ev (c & rp & ->). Qed.

Lemma quiet_all_plain (evs : list Event) : Forall quiet evs -> Forall plain evs.
Proof. intros H. eapply Forall_impl; [exact H | exact quiet_plain]. Qed.

Lemma ensureVideoDirExists_quiet : Emits quiet (ensureVideoDirExists D).
Proof.
  apply Emits_bind; [by apply Emits_native|].
  intros b. by apply Emits_when, Emits_native.
Qed.

Lemma copy_and_stat_quiet src name ts : Emits quiet (copy_and_stat D src name ts).
Proof.
  unfold copy_and_stat.
  apply Emits_bind.
  { destruct (JS.includes _ _); [apply Emits_lift | apply Emits_ret]. }
  intros processed. apply Emits_bind.
  { destruct (JS.startsWith _ _); [|apply Emits_ret].
    apply Emits_bind; [by apply Emits_native|].
    intros st. destruct (JS.truthy_string _); [apply Emits_ret|].
    apply Emits_bind; [by apply Emits_emit | intros; apply Emits_throw]. }
  intros actual. apply Emits_bind; [apply Emits_Date_now|]. intros _.
  apply Emits_bind; [by apply Emits_native|]. intros _.
  apply Emits_bind; [apply Emits_Date_now|]. intros _.
  apply Emits_bind; [by apply Emits_native|]. intros st.
  apply Emits_ret.
Qed.

(** The anatomy of a call of [copyVideoToStorage]. *)
Lemma copyVideoToStorage_run (src : string) (name : option string) (w : World) :
  let ts := hd 0%Z (clock w) in
  let dest := destPath_of D name ts in
  let r := copyVideoToStorage D src name w in
  exists body,
    events r = Enter_copyVideoToStorage src name :: body ++ [settled src name (result r)] /\
    Forall plain body /\
    store (after r) = store w /\
    (forall meta, result r = Ok meta ->
       exists actual st pre,
         body = pre ++ [Native (RNFS_copyFile_ actual dest) Done;
                        Native (RNFS_stat_ dest) (Stat st)] /\
         meta = VideoMetadata.mk (finalName_of name ts) (safeName_of name ts)
                  (sizeBytes_of st) dest (Num ts)) /\
    (forall e, In (Console_error [Text "File copy failed:"; Err e]) body ->
       (result r = Throw e /\ fs (after r) !! dest = None) \/
       (exists e', In (Native (RNFS_exists_ dest) (Rejected e')) body) \/
       (exists e', In (Native (RNFS_unlink_ dest) (Rejected e')) body)).
Proof.
  intros ts dest. cbv zeta.
  destruct (copyVideoToStorage D src name w) as [r w' t] eqn:E. cbn [result after events].
  unfold copyVideoToStorage, marked in E. fold (settled src name) in E.
  unfold bind at 1 in E.
  pose proof (ensureVideoDirExists_quiet w) as Q1.
  pose proof (ensureVideoDirExists_store D w) as S1.
  pose proof (ensureVideoDirExists_clock D w) as C1.
  destruct (ensureVideoDirExists D w) as [[u|e1] w1 t1]; cbn in Q1, S1, C1.
  2: { inversion E; subst; clear E. exists t1.
       split; [done|]. split; [by apply quiet_all_plain|]. split; [done|].
       split; [discriminate|]. intros e Hin. by apply quiet_not_catch_log in Hin. }
  unfold bind at 1 in E.
  pose proof (Date_now_run w1) as (R2 & T2 & F2).
  pose proof (Preserves_Date_now_store w1) as S2.
  destruct (Date_now w1) as [r2 w2 t2]; cbn in R2, T2, F2, S2. subst r2 t2.
  rewrite C1 in E. fold ts in E. fold dest in E.
  unfold try_catch in E.
  pose proof (copy_and_stat_quiet src name ts w2) as Q3.
  pose proof (copy_and_stat_store D src name ts w2) as S3.
  destruct (copy_and_stat D src name ts w2) as [[meta|e0] w3 t3] eqn:E3; cbn in Q3, S3.
  - inversion E; subst; clear E. exists (t1 ++ t3).
    split; [cbn; by rewrite <- ?app_assoc|].
    split; [apply Forall_app; split; by apply quiet_all_plain|].
    split; [congruence|]. split.
    + intros meta' [= <-]. apply copy_and_stat_Ok in E3 as (actual & st & pre & -> & ->).
      exists actual, st, (t1 ++ pre). by rewrite app_assoc.
    + intros e Hin. exfalso. apply (quiet_not_catch_log (t1 ++ t3) e); [|done].
      by apply Forall_app.
  - pose proof (cleanup_and_rethrow_run dest e0 w3) as (rest & Hev & Hnat & [e4 Hthrow] & Hcases).
    pose proof (cleanup_and_rethrow_store dest e0 w3) as S4.
    destruct (cleanup_and_rethrow dest e0 w3) as [r4 w4 t4]; cbn in Hev, Hthrow, Hcases, S4.
    subst t4 r4.
    inversion E; subst; clear E. exists (t1 ++ t3 ++ Console_error [Text "File copy failed:"; Err e0] :: rest).
    split; [cbn; by rewrite <- ?app_assoc|]. split.
    { repeat (apply Forall_app; split); try by apply quiet_all_plain.
      constructor; [done | by apply native_plain]. }
    split; [congruence|]. split.
    + intros meta [=].
    + intros e Hin. apply in_app_or in Hin as [Hin|Hin];
        [by apply quiet_not_catch_log in Hin|].
      apply in_app_or in Hin as [Hin|Hin]; [by apply quiet_not_catch_log in Hin|].
      assert (e = e0) as ->.
      { destruct Hin as [[= ->]|Hin]; [done|]. apply list_elem_of_In in Hin.
        rewrite Forall_forall in Hnat. by apply Hnat in Hin as (? & ? & [=]). }
      destruct Hcases as [H|[[e' H]|[e' H]]]; [by left|right; left|right; right].
      all: exists e'; apply in_or_app; right; apply in_or_app; right; by right.
Qed.

Lemma sanitize_ascii (s : string) : is_ascii s = true -> sanitize s = replace_unsafe s.
Proof.
  induction s as [|c s IH]; [done|]. cbn. intros [Hc Hs]%andb_prop.
  rewrite (IH Hs). destruct (is_safe c); [done|]. by rewrite Hc.
Qed.

(** C6 (as amended): the record a successful [copyVideoToStorage] returns
    has the id [<timestamp>_<safe name>], that safe name as its name and the
    timestamp as [createdAt], where the timestamp is the clock reading
    taken by the call and the safe name is [fileName] with every code unit
    outside [a-zA-Z0-9.] replaced by an underscore, or
    [video_<timestamp>.mp4] when [fileName] is undefined or empty.  For an
    ASCII file name the replacement is the character-by-character one of
    the specification. *)
Theorem record_identity (src : string) (fileName : option string) (w : World)
    (meta : VideoMetadata) :
  result (copyVideoToStorage D src fileName w) = Ok meta ->
  let timestamp := hd 0%Z (clock w) in
  let safeName :=
    match fileName with
    | Some (String c s) => sanitize (String c s)
    | Some EmptyString | None => "video_" +:+ JS.string_of_Z timestamp +:+ ".mp4"
    end in
  VideoMetadata.id meta = JS.string_of_Z timestamp +:+ "_" +:+ safeName /\
  VideoMetadata.name meta = safeName /\
  VideoMetadata.createdAt meta = Num timestamp /\
  (forall f, fileName = Some f -> f <> EmptyString -> is_ascii f = true ->
             safeName = replace_unsafe f).
Proof.
  intros H.
  destruct (copyVideoToStorage_run src fileName w) as (body & _ & _ & _ & Hok & _).
  destruct (Hok meta H) as (actual & st & pre & _ & ->).
  cbn [VideoMetadata.id VideoMetadata.name VideoMetadata.createdAt].
  unfold finalName_of, safeName_of.
  split; [by destruct fileName as [[|c s]|]|]. split; [by destruct fileName as [[|c s]|]|].
  split; [done|]. intros f -> Hne Hascii. destruct f as [|c s]; [done|].
  by apply sanitize_ascii.
Qed.


End CopyFacts.

(** ** The import loop *)

Lemma omap_step {A B} (f : A -> option B) (x : A) (l : list A) :
  omap f (x :: l) = match f x with Some y => y :: omap f l | None => omap f l end.
Proof. reflexivity. Qed.

Lemma plain_entered (t : list Event) : Forall plain t -> entered t = [].
Proof. induction 1 as [|ev t Hev _ IH]; [done|]. by destruct ev. Qed.

Lemma plain_copied (t : list Event) : Forall plain t -> copied t = [].
Proof. induction 1 as [|ev t Hev _ IH]; [done|]. by destruct ev. Qed.

Lemma plain_failure (t : list Event) : Forall plain t -> omap failure_of t = [].
Proof. induction 1 as [|ev t Hev _ IH]; [done|]. by destruct ev. Qed.

Lemma plain_registered (t t' : list Event) :
  Forall plain t -> registered (t ++ t') = registered t'.
Proof. induction 1 as [|ev t Hev _ IH]; [done|]. by destruct ev. Qed.

Lemma plain_not_add (t : list Event) (vs : list VideoMetadata) :
  Forall plain t -> ~ In (Enter_addVideos vs) t.
Proof.
  intros H Hin. rewrite Forall_forall in H. apply list_elem_of_In in Hin. by apply H in Hin.
Qed.

Lemma app_eq_split {A} (l1 l2 pre post : list A) (x : A) :
  l1 ++ l2 = pre ++ x :: post ->
  (exists q, l1 = pre ++ x :: q /\ post = q ++ l2) \/
  (exists p, pre = l1 ++ p /\ l2 = p ++ x :: post).
Proof.
  revert pre. induction l1 as [|a l1 IH]; intros pre H.
  - right. by exists pre.
  - destruct pre as [|b pre]; cbn in H; inversion H; subst.
    + left. by exists l1.
    + destruct (IH pre H2) as [(q & -> & ->)|(p & -> & ->)]; [left|right]; eauto.
Qed.

(** A list with a single call of [addVideos] splits at it in one way only. *)
Lemma single_add_split (l1 l2 pre post : list Event) (vs0 vs : list VideoMetadata) :
  (forall vs', ~ In (Enter_addVideos vs') l1) ->
  (forall vs', ~ In (Enter_addVideos vs') l2) ->
  l1 ++ Enter_addVideos vs0 :: l2 = pre ++ Enter_addVideos vs :: post ->
  pre = l1 /\ vs = vs0.
Proof.
  intros H1 H2 H. apply app_eq_split in H as [(q & -> & _)|(p & -> & H)].
  - exfalso. apply (H1 vs), in_or_app. right. by left.
  - destruct p as [|ev p]; cbn in H; inversion H; subst.
    + by rewrite app_nil_r.
    + exfalso. apply (H2 vs), in_or_app. right. by left.
Qed.

Section LoopFacts.
Variable D : string.

(** The anatomy of one iteration. *)
Lemma import_one_run (i : Z) (asset : Asset.t) (sc : Z) (errs : list string) (w : World) :
  let r := import_one D i asset sc errs w in
  let src := Asset.uri asset in
  let name := Asset.name asset in
  exists body,
    Forall plain body /\
    ((exists e,
        events r = Enter_copyVideoToStorage src (Some name) :: body ++
                   [Reject_copyVideoToStorage src (Some name) e;
                    Console_error [Text ("Failed to copy " +:+ name); Err e]] /\
        result r = Ok (sc, errs ++ ["Failed to save " +:+ name +:+ ": " +:+ JS.message e]) /\
        videos (store (after r)) = videos (store w))
     \/
     (exists meta reply tail actual st pre,
        body = pre ++ [Native (RNFS_copyFile_ actual (VideoMetadata.path meta)) Done;
                       Native (RNFS_stat_ (VideoMetadata.path meta)) (Stat st)] /\
        VideoMetadata.path meta = VIDEO_DIR D +:+ "/" +:+ VideoMetadata.id meta /\
        VideoMetadata.size meta = sizeBytes_of st /\
        events r = Enter_copyVideoToStorage src (Some name) :: body ++
                   [Resolve_copyVideoToStorage src (Some name) meta;
                    Enter_addVideos [meta];
                    Native (AsyncStorage_setItem_ STORAGE_KEY
                              (JSON_stringify (videos (store w) ++ [meta]))) reply] ++ tail /\
        Forall plain tail /\
        result r = Ok ((sc + 1)%Z, errs) /\
        ((reply = Done /\ videos (store (after r)) = videos (store w) ++ [meta]) \/
         (exists e, reply = Rejected e /\ videos (store (after r)) = videos (store w))))).
Proof.
  intros r src name. subst r.
  destruct (import_one D i asset sc errs w) as [r w' t] eqn:E. cbn [result after events].
  unfold import_one, try_catch, bind, setProgress, set_button, modify, ret in E.
  cbn -[copyVideoToStorage addVideos] in E. fold src name in E.
  set (w1 := with_button _ w) in E.
  destruct (copyVideoToStorage_run D src (Some name) w1) as (body & Hev & Hplain & Hst & Hok & _).
  change (store w1) with (store w) in Hst.
  destruct (copyVideoToStorage D src (Some name) w1) as [[meta|e] w2 t2];
    cbn [result after events settled] in *; subst t2; exists body; (split; [done|]).
  - right. destruct (Hok meta eq_refl) as (actual & st & pre & Hbody & Hmeta).
    destruct (addVideos_run [meta] w2) as (Hr & _ & Hadd). rewrite Hst in Hadd.
    destruct (addVideos [meta] w2) as [ra wa ta]; cbn [result after events] in *. subst ra.
    inversion E; subst r w' t; clear E.
    assert (VideoMetadata.path meta = destPath_of D (Some name) (hd 0%Z (clock w1))) as Hp
      by (by rewrite Hmeta).
    destruct Hadd as [(-> & Hv & _)|(e & -> & Hv & _)].
    + exists meta, Done, [], actual, st, pre.
      split; [by rewrite Hbody, Hp|]. split; [by rewrite Hmeta|]. split; [by rewrite Hmeta|].
      split; [cbn; by rewrite <- !app_assoc|]. split; [done|]. split; [done|]. by left.
    + exists meta, (Rejected e), [Console_error [Err e]], actual, st, pre.
      split; [by rewrite Hbody, Hp|]. split; [by rewrite Hmeta|]. split; [by rewrite Hmeta|].
      split; [cbn; by rewrite <- !app_assoc|]. split; [by repeat constructor|]. split; [done|].
      right. by exists e.
  - left. exists e. inversion E; subst r w' t; clear E.
    split; [cbn; by rewrite <- !app_assoc|]. split; [done|]. by rewrite Hst.
Qed.

(** What the trace of one iteration shows, and how it matches the result. *)
Lemma import_one_observed (i : Z) (asset : Asset.t) (sc : Z) (errs : list string) (w : World) :
  let r := import_one D i asset sc errs w in
  entered (events r) = [(Asset.uri asset, Some (Asset.name asset))] /\
  result r = Ok ((sc + Z.of_nat (length (copied (events r))))%Z,
                 errs ++ omap failure_of (events r)) /\
  videos (store (after r)) = videos (store w) ++ registered (events r) /\
  (forall t', registered (events r ++ t') = registered (events r) ++ registered t') /\
  ((forall k v e, ~ In (Native (AsyncStorage_setItem_ k v) (Rejected e)) (events r)) ->
   registered (events r) = copied (events r)).
Proof.
  intros r. destruct (import_one_run i asset sc errs w) as (body & Hplain & Hcases).
  fold r in Hcases.
  assert (forall X t', registered ((Enter_copyVideoToStorage (Asset.uri asset)
            (Some (Asset.name asset)) :: body ++ X) ++ t') = registered (X ++ t')) as Hreg.
  { intros X t'. cbn. by rewrite <- app_assoc, plain_registered. }
  destruct Hcases as [(e & Hev & Hres & Hv) |
    (meta & reply & tail & actual & st & pre & _ & _ & _ & Hev & Htail & Hres & Hv)].
  - rewrite Hev, Hres, Hv. unfold entered, copied. rewrite !omap_step, !omap_app.
    fold (entered body) (copied body). rewrite plain_entered, plain_copied, plain_failure by done.
    cbn. rewrite Z.add_0_r.
    assert (forall t', registered ((body ++ [Reject_copyVideoToStorage (Asset.uri asset)
              (Some (Asset.name asset)) e;
              Console_error [Text ("Failed to copy " +:+ Asset.name asset); Err e]]) ++ t')
            = registered t') as Hr.
    { intros t'. by rewrite <- app_assoc, plain_registered. }
    pose proof (Hr []) as Hr0. rewrite app_nil_r in Hr0. rewrite Hr0.
    repeat split; try done; try (by rewrite app_nil_r).
    all: intros t'; by rewrite Hr.
  - rewrite Hev, Hres. unfold entered, copied. rewrite !omap_step, !omap_app.
    fold (entered body) (copied body).
    rewrite !plain_entered, !plain_copied, !plain_failure by done.
    cbn. fold (entered tail) (copied tail).
    rewrite plain_entered, plain_copied, plain_failure by done.
    assert (forall t', registered ((body ++ Resolve_copyVideoToStorage (Asset.uri asset)
              (Some (Asset.name asset)) meta :: Enter_addVideos [meta] ::
              Native (AsyncStorage_setItem_ STORAGE_KEY
                        (JSON_stringify (videos (store w) ++ [meta]))) reply :: tail) ++ t')
            = match reply with Done => [meta] | _ => [] end ++ registered t') as Hr.
    { intros t'. rewrite <- app_assoc, plain_registered by done. cbn.
      destruct reply; cbn; by rewrite plain_registered. }
    pose proof (Hr []) as Hr0. rewrite !app_nil_r in Hr0. rewrite Hr0.
    split; [done|]. split; [by rewrite app_nil_r|]. split; [|split].
    + destruct Hv as [[-> ->]|(e & -> & ->)]; [done | by rewrite app_nil_r].
    + intros t'. by rewrite Hr.
    + intros Hno. destruct Hv as [[-> _]|(e & -> & _)]; [done|].
      exfalso. eapply Hno. right. apply in_or_app. right. right. right. by left.
Qed.

(** C3 (as amended): the loop calls [copyVideoToStorage] once per asset, in
    batch order, whatever fails on the way, and always completes.  A copy
    that rejects files one message for its asset in the error list.  A
    registration that fails files none: [addVideos] handles the failure
    itself and does not reject.  On completion the store's list is the
    pre-loop list followed, in batch order, by the records of the assets
    that were copied and whose registration was persisted; when no
    [AsyncStorage.setItem] is rejected these are all the copied assets. *)
Theorem import_loop_sequential (i : Z) (assets : list Asset.t) (sc : Z)
    (errs : list string) (w : World) :
  let r := import_loop D i assets sc errs w in
  entered (events r) = map (fun a => (Asset.uri a, Some (Asset.name a))) assets /\
  result r = Ok ((sc + Z.of_nat (length (copied (events r))))%Z,
                 errs ++ omap failure_of (events r)) /\
  videos (store (after r)) = videos (store w) ++ registered (events r) /\
  ((forall k v e, ~ In (Native (AsyncStorage_setItem_ k v) (Rejected e)) (events r)) ->
   registered (events r) = copied (events r)).
Proof.
  cbv zeta. revert i sc errs w.
  induction assets as [|asset rest IH]; intros i sc errs w.
  - cbn. rewrite Z.add_0_r, !app_nil_r. by repeat split.
  - cbn [import_loop map].
    change (bind ?m ?k w) with
      (match m w with
       | mkRun (Ok a) w1 t1 => match k a w1 with mkRun r w2 t2 => mkRun r w2 (t1 ++ t2) end
       | mkRun (Throw e) w1 t1 => mkRun (Throw e) w1 t1
       end).
    destruct (import_one_observed i asset sc errs w) as (Hen & Hres & Hv & Hreg & Hall).
    destruct (import_one D i asset sc errs w) as [r1 w1 t1]; cbn [result after events] in *.
    subst r1. cbn [fst snd].
    specialize (IH (i + 1)%Z (sc + Z.of_nat (length (copied t1)))%Z
                  (errs ++ omap failure_of t1) w1) as (IHen & IHres & IHv & IHall).
    destruct (import_loop D (i + 1) rest _ _ w1) as [r2 w2 t2]; cbn [result after events] in *.
    subst r2. unfold entered, copied in *. rewrite !omap_app, length_app, Hreg.
    split; [by rewrite Hen, IHen|]. split; [f_equal; f_equal; [lia | by rewrite app_assoc]|].
    split; [by rewrite IHv, Hv, app_assoc|].
    intros Hno. rewrite Hall, IHall; [done| |].
    + intros k v e Hin. apply (Hno k v e), in_or_app. by right.
    + intros k v e Hin. apply (Hno k v e), in_or_app. by left.
Qed.

(** *** The device at the time of a registration *)

Lemma addVideos_fs (vs : list VideoMetadata) (w : World) :
  fs (after (addVideos vs w)) = fs w.
Proof. destruct w as [f s c fl st b]. unfold_store. crunch; reflexivity. Qed.

(** A copy that resolves found its source and left, at the destination, a
    plain file of the size of the source. *)
Lemma RNFS_copyFile_resolved (s d : string) (w w' : World) (u : unit) (t : list Event) :
  RNFS_copyFile s d w = mkRun (Ok u) w' t ->
  exists src, fs w' !! s = Some src /\ fs w' !! d = Some (plain_file (stat_size src)).
Proof.
  unfold RNFS_copyFile, native, next_fault.
  destruct (faults w) as [|[|e|e n] fl]; cbn; try discriminate.
  all: destruct (fs w !! s) as [src|] eqn:E; cbn; try discriminate.
  all: intros H; inversion H; subst; cbn.
  all: destruct (decide (s = d)) as [->|Hne].
  all: try (exists (plain_file (stat_size src)); rewrite lookup_insert_eq; by split).
  all: exists src; rewrite lookup_insert_eq, lookup_insert_ne by done; by split.
Qed.

(** A stat that resolves reports what the device holds at the path. *)
Lemma RNFS_stat_resolved (p : string) (w w' : World) (st : StatResult) (t : list Event) :
  RNFS_stat p w = mkRun (Ok st) w' t -> fs w' = fs w /\ fs w !! p = Some st.
Proof.
  unfold RNFS_stat, native, next_fault.
  destruct (faults w) as [|[|e|e n] fl]; cbn; try discriminate.
  all: destruct (fs w !! p) eqn:E; cbn; try discriminate.
  all: intros H; inversion H; subst; by cbn.
Qed.

Lemma Date_now_fs (w w' : World) (r : Result Z) (t : list Event) :
  Date_now w = mkRun r w' t -> fs w' = fs w.
Proof. unfold Date_now. destruct (clock w); intros H; by inversion H. Qed.

(** When the [try] block returns, the stat it reports is that of the file
    the device holds at the destination, a plain file of the size of the
    source it was copied from. *)
Lemma copy_and_stat_device (src : string) (name : option string) (ts : Z) (w w' : World)
    (meta : VideoMetadata) (t : list Event) :
  copy_and_stat D src name ts w = mkRun (Ok meta) w' t ->
  exists (actual : string) (st source : StatResult) (pre : list Event),
    t = pre ++ [Native (RNFS_copyFile_ actual (destPath_of D name ts)) Done;
                Native (RNFS_stat_ (destPath_of D name ts)) (Stat st)] /\
    meta = VideoMetadata.mk (finalName_of name ts) (safeName_of name ts)
             (sizeBytes_of st) (destPath_of D name ts) (Num ts) /\
    fs w' !! destPath_of D name ts = Some st /\
    fs w' !! actual = Some source /\
    st = plain_file (stat_size source).
Proof.
  unfold copy_and_stat.
  set (decode := if JS.includes _ _ then _ else _).
  unfold bind at 1. destruct (decode w) as [[processed|e] w1 t1]; [|discriminate].
  set (resolve := if JS.startsWith _ _ then _ else _).
  unfold bind at 1. destruct (resolve w1) as [[actual|e] w2 t2]; [|discriminate].
  unfold bind at 1. destruct (Date_now w2) as [[c1|e] w3 t3] eqn:E3; [|discriminate].
  unfold bind at 1.
  destruct (RNFS_copyFile actual _ w3) as [[u|e] w4 t4] eqn:E4; [|discriminate].
  unfold bind at 1. destruct (Date_now w4) as [[c2|e] w5 t5] eqn:E5; [|discriminate].
  unfold bind at 1.
  destruct (RNFS_stat _ w5) as [[st|e] w6 t6] eqn:E6; [|discriminate].
  cbn. intros H. inversion H; subst; clear H.
  pose proof (RNFS_copyFile_resolved _ _ _ _ _ _ E4) as (source & Hsrc & Hdst).
  pose proof (Date_now_fs _ _ _ _ E5) as F5.
  pose proof (RNFS_stat_resolved _ _ _ _ _ E6) as (F6 & Hst).
  rewrite F5, Hdst in Hst. injection Hst as <-.
  apply Date_now_silent in E3, E5. apply native_run_Ok in E4, E6. subst.
  exists actual, (plain_file (stat_size source)), source, (t1 ++ t2).
  split; [cbn; by rewrite <- app_assoc|]. split; [reflexivity|].
  rewrite F6, F5. by repeat split.
Qed.

(** When [copyVideoToStorage] resolves, its trace ends with the copy, the
    stat and the resolution, and the device holds the copy. *)
Lemma copyVideoToStorage_device (src : string) (name : option string) (w : World)
    (meta : VideoMetadata) :
  let r := copyVideoToStorage D src name w in
  result r = Ok meta ->
  exists (actual : string) (st source : StatResult) (pre : list Event),
    events r = Enter_copyVideoToStorage src name :: pre ++
               [Native (RNFS_copyFile_ actual (VideoMetadata.path meta)) Done;
                Native (RNFS_stat_ (VideoMetadata.path meta)) (Stat st);
                Resolve_copyVideoToStorage src name meta] /\
    Forall plain pre /\
    VideoMetadata.path meta = VIDEO_DIR D +:+ "/" +:+ VideoMetadata.id meta /\
    VideoMetadata.size meta = sizeBytes_of st /\
    fs (after r) !! VideoMetadata.path meta = Some st /\
    fs (after r) !! actual = Some source /\
    st = plain_file (stat_size source).
Proof.
  cbv zeta. unfold copyVideoToStorage, marked.
  match goal with |- result (match ?m w with _ => _ end) = _ -> _ =>
    destruct (m w) as [r w' t] eqn:E end.
  cbn [result after events]. intros ->. revert E.
  unfold bind at 1.
  pose proof (ensureVideoDirExists_quiet D w) as Q1.
  destruct (ensureVideoDirExists D w) as [[u|e1] w1 t1]; cbn in Q1; [|discriminate].
  unfold bind at 1.
  pose proof (Date_now_run w1) as (R2 & T2 & _).
  destruct (Date_now w1) as [r2 w2 t2]; cbn in R2, T2. subst r2 t2.
  unfold try_catch.
  pose proof (copy_and_stat_quiet D src name (hd 0%Z (clock w1)) w2) as Q3.
  destruct (copy_and_stat D src name _ w2) as [[meta'|e0] w3 t3] eqn:E3; cbn in Q3.
  - intros [= -> -> <-].
    apply copy_and_stat_device in E3 as (actual & st & source & pre & -> & -> & Hd & Hs & Hst).
    exists actual, st, source, (t1 ++ pre). cbn [VideoMetadata.path VideoMetadata.size VideoMetadata.id].
    split; [cbn; by rewrite <- !app_assoc|].
    split.
    { apply Forall_app. split; [by apply quiet_all_plain|].
      apply Forall_app in Q3 as [Q3 _]. by apply quiet_all_plain. }
    by repeat split.
  - pose proof (cleanup_and_rethrow_run (destPath_of D name (hd 0%Z (clock w1))) e0 w3)
      as (rest & _ & _ & (e' & Hr) & _).
    destruct (cleanup_and_rethrow _ e0 w3) as [r4 w4 t4]; cbn in *. subst r4.
    intros [=].
Qed.

(** Within one iteration: a call of [addVideos] comes right after the
    copy, the stat and the resolution for the asset of the iteration, and
    when the iteration is over the device holds the copy. *)
Lemma import_one_device (i : Z) (asset : Asset.t) (sc : Z) (errs : list string) (w : World)
    (pre post : list Event) (vs : list VideoMetadata) :
  let r := import_one D i asset sc errs w in
  events r = pre ++ Enter_addVideos vs :: post ->
  exists (meta : VideoMetadata) (st source : StatResult) (actual : string) (pre' : list Event),
    vs = [meta] /\
    pre = pre' ++ [Native (RNFS_copyFile_ actual (VideoMetadata.path meta)) Done;
                   Native (RNFS_stat_ (VideoMetadata.path meta)) (Stat st);
                   Resolve_copyVideoToStorage (Asset.uri asset) (Some (Asset.name asset)) meta] /\
    VideoMetadata.path meta = VIDEO_DIR D +:+ "/" +:+ VideoMetadata.id meta /\
    VideoMetadata.size meta = sizeBytes_of st /\
    entered pre = [(Asset.uri asset, Some (Asset.name asset))] /\
    fs (after r) !! VideoMetadata.path meta = Some st /\
    fs (after r) !! actual = Some source /\
    st = plain_file (stat_size source).
Proof.
  cbv zeta.
  destruct (import_one D i asset sc errs w) as [r w' t] eqn:E. cbn [result after events].
  unfold import_one, try_catch, bind, setProgress, set_button, modify, ret in E.
  cbn -[copyVideoToStorage addVideos] in E.
  set (src := Asset.uri asset) in *. set (name := Asset.name asset) in *.
  set (w1 := with_button _ w) in E.
  pose proof (copyVideoToStorage_device src (Some name) w1) as Hdev.
  destruct (copyVideoToStorage_run D src (Some name) w1) as (body & Hev & Hplain & _).
  destruct (copyVideoToStorage D src (Some name) w1) as [[meta|e] w2 t2];
    cbn [result after events settled] in *.
  - destruct (Hdev meta eq_refl) as (actual & st & source & pre0 & Ht2 & Hpre0 & Hp & Hs & Hd & Ha & Hst).
    destruct (addVideos_run [meta] w2) as (Hr & _ & Hadd).
    pose proof (addVideos_fs [meta] w2) as Hfs.
    destruct (addVideos [meta] w2) as [ra wa ta]; cbn [result after events] in *. subst ra.
    inversion E; subst r w' t; clear E. intros H.
    assert (exists tail, ta = Enter_addVideos [meta] :: tail /\
                         forall vs', ~ In (Enter_addVideos vs') tail) as (tail & -> & Htail).
    { destruct Hadd as [(-> & _)|(e & -> & _)]; eexists; (split; [reflexivity|]).
      all: intros vs' Hin; repeat (destruct Hin as [[=]|Hin]); done. }
    rewrite app_nil_r in H. apply single_add_split in H as [-> ->]; [|  |exact Htail].
    + exists meta, st, source, actual, (Enter_copyVideoToStorage src (Some name) :: pre0).
      split; [done|]. split; [by rewrite Ht2|]. split; [done|]. split; [done|].
      split; [|by rewrite Hfs].
      rewrite Ht2. unfold entered. rewrite omap_step, omap_app. fold (entered pre0).
      by rewrite (plain_entered pre0 Hpre0).
    + intros vs' Hin. rewrite Ht2 in Hin. destruct Hin as [[=]|Hin].
      apply in_app_or in Hin as [Hin|Hin]; [by apply plain_not_add in Hin|].
      repeat (destruct Hin as [[=]|Hin]); done.
  - inversion E; subst r w' t; clear E. intros H. exfalso.
    assert (In (Enter_addVideos vs) (t2 ++ [Console_error [Text ("Failed to copy " +:+ name); Err e]]))
      as Hin by (rewrite H; apply in_or_app; right; by left).
    rewrite Hev in Hin. apply in_app_or in Hin as [Hin|Hin].
    + destruct Hin as [[=]|Hin]. apply in_app_or in Hin as [Hin|[[=]|[]]].
      by apply plain_not_add in Hin.
    + by destruct Hin as [[=]|[]].
Qed.

Lemma after_extend {A} (x : Run A) (f : list Event -> list Event) :
  after (match x with mkRun r w t => mkRun r w (f t) end) = after x.
Proof. by destruct x. Qed.

(** C1: in a run of the import loop, every call of [addVideos] is made with
    the one record that a call of [copyVideoToStorage] for an asset of the
    batch has just resolved with; that resolution follows the successful
    copy to, and the stat of, the record's path; the path is the
    destination inside the video directory, and the size is the one that
    stat reported.  The call belongs to the iteration of that asset, and
    when this iteration is over the device holds the copy: at the record's
    path there is the very file that stat reported, a plain file of the
    size of the source it was copied from, which the device still holds. *)
Theorem addVideos_only_after_copy (i : Z) (assets : list Asset.t) (sc : Z)
    (errs : list string) (w : World) (pre post : list Event) (vs : list VideoMetadata) :
  events (import_loop D i assets sc errs w) = pre ++ Enter_addVideos vs :: post ->
  exists asset meta st actual pre',
    In asset assets /\ vs = [meta] /\
    pre = pre' ++ [Native (RNFS_copyFile_ actual (VideoMetadata.path meta)) Done;
                   Native (RNFS_stat_ (VideoMetadata.path meta)) (Stat st);
                   Resolve_copyVideoToStorage (Asset.uri asset)
                     (Some (Asset.name asset)) meta] /\
    VideoMetadata.path meta = VIDEO_DIR D +:+ "/" +:+ VideoMetadata.id meta /\
    VideoMetadata.size meta = sizeBytes_of st /\
    exists done rest source,
      assets = done ++ asset :: rest /\
      entered pre = map (fun a => (Asset.uri a, Some (Asset.name a))) (done ++ [asset]) /\
      let device := fs (after (import_loop D i (done ++ [asset]) sc errs w)) in
      device !! VideoMetadata.path meta = Some st /\
      device !! actual = Some source /\
      st = plain_file (stat_size source).
Proof.
  revert i sc errs w pre post vs.
  induction assets as [|a rest0 IH]; intros i sc errs w pre post vs H.
  - cbn in H. by destruct pre.
  - cbn [import_loop] in H.
    change (bind ?m ?k w) with
      (match m w with
       | mkRun (Ok a) w1 t1 => match k a w1 with mkRun r w2 t2 => mkRun r w2 (t1 ++ t2) end
       | mkRun (Throw e) w1 t1 => mkRun (Throw e) w1 t1
       end) in H.
    pose proof (import_one_device i a sc errs w) as H1.
    destruct (import_one_observed i a sc errs w) as (Hen & Hres & _).
    destruct (import_one D i a sc errs w) as [r1 w1 t1] eqn:E1; cbn [result after events] in *.
    subst r1. cbn [fst snd] in H.
    specialize (IH (i + 1)%Z (sc + Z.of_nat (length (copied t1)))%Z
                  (errs ++ omap failure_of t1) w1).
    destruct (import_loop D (i + 1) rest0 _ _ w1) as [r2 w2 t2] eqn:E2;
      cbn [result after events] in *.
    apply app_eq_split in H as [(q & H & _)|(p & -> & H)].
    + destruct (H1 pre q vs H) as (meta & st & source & actual & pre' & Hvs & Hpre & Hp & Hs & Hent & Hd & Ha & Hst).
      exists a, meta, st, actual, pre'.
      split; [by left|]. split; [done|]. split; [done|]. split; [done|]. split; [done|].
      exists [], rest0, source. split; [done|]. split; [done|].
      cbn [app import_loop].
      change (bind ?m ?k w) with
        (match m w with
         | mkRun (Ok a) w1 t1 => match k a w1 with mkRun r w2 t2 => mkRun r w2 (t1 ++ t2) end
         | mkRun (Throw e) w1 t1 => mkRun (Throw e) w1 t1
         end).
      rewrite E1. cbn. done.
    + destruct (IH p post vs H)
        as (asset & meta & st & actual & pre' & Hin & Hvs & Hpre & Hp & Hs &
            done & rest & source & Hsplit & Hent & Hdev).
      exists asset, meta, st, actual, (t1 ++ pre').
      split; [by right|]. split; [done|].
      split; [by rewrite Hpre, app_assoc|]. split; [done|]. split; [done|].
      exists (a :: done), rest, source.
      split; [by rewrite Hsplit|].
      split; [unfold entered in *; by rewrite omap_app, Hen, Hent|].
      cbn [app import_loop].
      change (bind ?m ?k w) with
        (match m w with
         | mkRun (Ok a) w1 t1 => match k a w1 with mkRun r w2 t2 => mkRun r w2 (t1 ++ t2) end
         | mkRun (Throw e) w1 t1 => mkRun (Throw e) w1 t1
         end).
      rewrite E1. cbn [fst snd]. rewrite (after_extend _ (fun t => t1 ++ t)). exact Hdev.
Qed.

End LoopFacts.

(** ** Concrete runs *)

Lemma no_setItem_rejected (t : list Event) :
  forallb (fun ev => negb (setItem_rejected ev)) t = true ->
  forall k v e, ~ In (Native (AsyncStorage_setItem_ k v) (Rejected e)) t.
Proof.
  intros H k v e Hin. rewrite forallb_forall in H. by apply H in Hin.
Qed.


Lemma addVideos_only_after_copy_witness :
  exists asset meta st actual pre',
    In asset [party_asset; beach_asset] /\ [beach_record] = [meta] /\
    firstn 13 (events two_imports) =
      pre' ++ [Native (RNFS_copyFile_ actual (VideoMetadata.path meta)) Done;
               Native (RNFS_stat_ (VideoMetadata.path meta)) (Stat st);
               Resolve_copyVideoToStorage (Asset.uri asset)
                 (Some (Asset.name asset)) meta] /\
    VideoMetadata.path meta = VIDEO_DIR "/data" +:+ "/" +:+ VideoMetadata.id meta /\
    VideoMetadata.size meta = sizeBytes_of st /\
    exists done rest source,
      [party_asset; beach_asset] = done ++ asset :: rest /\
      entered (firstn 13 (events two_imports)) =
        map (fun a => (Asset.uri a, Some (Asset.name a))) (done ++ [asset]) /\
      let device := fs (after (import_loop "/data" 0 (done ++ [asset]) 0 []
                                 (phone readings []))) in
      device !! VideoMetadata.path meta = Some st /\
      device !! actual = Some source /\
      st = plain_file (stat_size source).
Proof.
  apply (addVideos_only_after_copy "/data" 0 [party_asset; beach_asset] 0 []
           (phone readings []) (firstn 13 (events two_imports))
           (skipn 14 (events two_imports)) [beach_record]).
  vm_compute. reflexivity.
Defined.

Lemma import_loop_sequential_witness :
  let r := import_loop "/data" 0 [party_asset; beach_asset] 0 [] (phone readings []) in
  (forall k v e, ~ In (Native (AsyncStorage_setItem_ k v) (Rejected e)) (events r)) /\
  entered (events r) =
    map (fun a => (Asset.uri a, Some (Asset.name a))) [party_asset; beach_asset] /\
  result r = Ok ((0 + Z.of_nat (length (copied (events r))))%Z,
                 [] ++ omap failure_of (events r)) /\
  videos (store (after r)) = videos (store (phone readings [])) ++ registered (events r) /\
  registered (events r) = copied (events r).
Proof.
  intros r.
  assert (forall k v e, ~ In (Native (AsyncStorage_setItem_ k v) (Rejected e)) (events r)) as Hno.
  { apply no_setItem_rejected. vm_compute. reflexivity. }
  destruct (import_loop_sequential "/data" 0 [party_asset; beach_asset] 0 []
              (phone readings [])) as (Hen & Hres & Hv & Hall).
  split; [exact Hno|]. split; [exact Hen|]. split; [exact Hres|]. split; [exact Hv|].
  exact (Hall Hno).
Defined.

(** C3, as stated, fails when the registration fails: the copy resolved,
    [AsyncStorage.setItem] was rejected inside [addVideos], and the loop
    ends with an empty error list, a success counted, and a store that lacks
    the record of the copied asset. *)
Lemma failed_registration_is_silent :
  let w := phone readings [Healthy; Healthy; Healthy; Healthy; Rejects EIO] in
  let r := import_loop "/data" 0 [party_asset] 0 [] w in
  copied (events r) = [party_record] /\
  In (Native (AsyncStorage_setItem_ STORAGE_KEY (JSON_stringify [party_record])) (Rejected EIO))
     (events r) /\
  result r = Ok (1%Z, []) /\
  videos (store (after r)) = [] /\
  videos (store (after r)) <> videos (store w) ++ copied (events r).
Proof.
  cbv zeta. split; [reflexivity|]. split; [vm_compute; tauto|].
  split; [reflexivity|]. split; [reflexivity|]. vm_compute. discriminate.
Qed.

Lemma record_identity_witness :
  result (copyVideoToStorage "/data" picked_party (Some "party night.mp4")
            (phone readings [])) = Ok party_record /\
  VideoMetadata.id party_record = "1700000001000_party_night.mp4" /\
  VideoMetadata.name party_record = "party_night.mp4" /\
  VideoMetadata.createdAt party_record = Num 1700000001000 /\
  VideoMetadata.name party_record = replace_unsafe "party night.mp4".
Proof.
  split; [reflexivity|].
  destruct (record_identity "/data" picked_party (Some "party night.mp4")
              (phone readings []) party_record eq_refl) as (Hid & Hname & Hat & Hspec).
  split; [exact Hid|]. split; [exact Hname|]. split; [exact Hat|].
  apply (Hspec "party night.mp4"); [reflexivity | discriminate | reflexivity].
Defined.

(** C6, as stated, fails for the empty file name: it is a string, not
    [undefined], yet the record is named [video_<timestamp>.mp4] and not
    after the (empty) result of the replacement. *)
Lemma empty_fileName_takes_default :
  exists meta,
    result (copyVideoToStorage "/data" picked_beach (Some EmptyString)
              (phone readings [])) = Ok meta /\
    VideoMetadata.name meta = "video_1700000001000.mp4" /\
    VideoMetadata.name meta <> replace_unsafe EmptyString /\
    VideoMetadata.id meta <> "1700000001000" +:+ "_" +:+ replace_unsafe EmptyString.
Proof.
  eexists. split; [reflexivity|]. split; [reflexivity|]. split; vm_compute; discriminate.
Qed.



(** * Further properties

    Properties of the code around the statements above: the other actions
    of the store, the delete dialog, what a copy touches, how ids are
    built, the validation loop and the whole of [handleSelectVideos]. *)

(** ** The store *)

Ltac unfold_more :=
  unfold loadVideos, confirmDelete, AsyncStorage_getItem, lift.

(** X1: every action of the store resolves, whatever the device does, and
    leaves [isLoading] false and the selection as it was. *)
Theorem store_actions_always_settle (a : StoreAction) (w : World) :
  result (perform a w) = Ok tt /\
  isLoading (store (after (perform a w))) = false /\
  selectedVideo (store (after (perform a w))) = selectedVideo (store w).
Proof.
  destruct w as [f s c fl st b]. destruct a as [vs|id|]; cbn [perform]; unfold_store.
  - crunch; by repeat split.
  - cbn. destruct (List.find (has_id id) (videos st)) as [v|] eqn:F; [|by repeat split].
    crunch; by repeat split.
  - crunch; by repeat split.
Qed.

(** X2: [clearVideos] only forgets the records: it makes one
    [AsyncStorage.removeItem] call and never touches a file, so the copies
    stay in the video directory. *)
Theorem clearVideos_keeps_files (w : World) :
  fs (after (clearVideos w)) = fs w /\
  exists reply, events (clearVideos w) = [Native (AsyncStorage_removeItem_ STORAGE_KEY) reply].
Proof.
  destruct w as [f s c fl st b]. unfold_store. crunch.
  all: split; [reflexivity|]; by eexists.
Qed.

(** X3: when [clearVideos] fails (its [removeItem] is rejected) the list
    and the persisted value are as before and the error field says so. *)
Theorem clearVideos_failure (w : World) :
  error (store (after (clearVideos w))) <> None ->
  videos (store (after (clearVideos w))) = videos (store w) /\
  storage (after (clearVideos w)) = storage w /\
  error (store (after (clearVideos w))) = Some "Failed to clear videos".
Proof.
  destruct w as [f s c fl st b]. unfold_store. crunch.
  all: intros H; try (by destruct H); by repeat split.
Qed.

Lemma clearVideos_failure_witness :
  videos (store (after (clearVideos (device [clip] [Rejects EIO])))) = [clip] /\
  storage (after (clearVideos (device [clip] [Rejects EIO]))) =
    storage (device [clip] [Rejects EIO]) /\
  error (store (after (clearVideos (device [clip] [Rejects EIO])))) =
    Some "Failed to clear videos".
Proof. apply (clearVideos_failure (device [clip] [Rejects EIO])). discriminate. Defined.

(** X4: a failed [addVideos] changes neither the list nor the persisted
    value: the list is only set after [setItem] has resolved. *)
Theorem addVideos_failure (newVideos : list VideoMetadata) (w : World) :
  error (store (after (addVideos newVideos w))) <> None ->
  videos (store (after (addVideos newVideos w))) = videos (store w) /\
  storage (after (addVideos newVideos w)) = storage w /\
  error (store (after (addVideos newVideos w))) = Some "Failed to save videos metadata".
Proof.
  intros H. destruct (addVideos_run newVideos w) as (_ & _ & [(_ & _ & He & _) | (e & _ & Hv & He & Hs)]).
  - by destruct H.
  - done.
Qed.

Lemma addVideos_failure_witness :
  videos (store (after (addVideos [beach] (device [clip] [Rejects EIO])))) = [clip] /\
  storage (after (addVideos [beach] (device [clip] [Rejects EIO]))) =
    storage (device [clip] [Rejects EIO]) /\
  error (store (after (addVideos [beach] (device [clip] [Rejects EIO])))) =
    Some "Failed to save videos metadata".
Proof. apply (addVideos_failure [beach] (device [clip] [Rejects EIO])). discriminate. Defined.

(** X5: two successful [addVideos] calls in a row leave the list, and the
    persisted value, that one call with both batches would leave. *)
Theorem addVideos_twice (xs ys : list VideoMetadata) (w : World) :
  let w1 := after (addVideos xs w) in
  let w2 := after (addVideos ys w1) in
  error (store w1) = None ->
  error (store w2) = None ->
  videos (store w2) = videos (store w) ++ xs ++ ys /\
  storage w2 !! STORAGE_KEY = Some (JSON_stringify (videos (store w) ++ xs ++ ys)).
Proof.
  intros w1 w2 H1 H2.
  destruct (addVideos_run xs w) as (_ & _ & [(_ & Hv1 & _) | (e & _ & _ & He & _)]);
    [|fold w1 in He; congruence].
  destruct (addVideos_run ys w1) as (_ & _ & [(_ & Hv2 & _ & Hs2) | (e & _ & _ & He & _)]);
    [|fold w2 in He; congruence].
  fold w1 in Hv1. fold w2 in Hv2, Hs2. rewrite Hv1 in Hv2, Hs2.
  rewrite <- app_assoc in Hv2, Hs2. done.
Qed.

Lemma addVideos_twice_witness :
  let w2 := after (addVideos [party] (after (addVideos [beach] (device [clip] [])))) in
  videos (store w2) = [clip; beach; party] /\
  storage w2 !! STORAGE_KEY = Some (JSON_stringify [clip; beach; party]).
Proof.
  cbv zeta. apply (addVideos_twice [beach] [party] (device [clip] [])); reflexivity.
Defined.

(** X6: registering a record whose id is new and deleting that id again
    gives the list back, whatever the device does during the deletion. *)
Theorem add_then_delete (r : VideoMetadata) (w : World) :
  let w1 := after (addVideos [r] w) in
  Forall (fun v => VideoMetadata.id v <> VideoMetadata.id r) (videos (store w)) ->
  error (store w1) = None ->
  videos (store (after (deleteVideo (VideoMetadata.id r) w1))) = videos (store w).
Proof.
  intros w1 Hfresh H1.
  destruct (addVideos_run [r] w) as (_ & _ & [(_ & Hv1 & _) | (e & _ & _ & He & _)]);
    [|fold w1 in He; congruence].
  fold w1 in Hv1. rewrite deleteVideo_videos, Hv1.
  destruct (find_present (VideoMetadata.id r) (videos (store w)) [] r eq_refl) as [v ->].
  rewrite (filter_single (VideoMetadata.id r) (videos (store w)) [] r eq_refl).
  - apply app_nil_r.
  - by rewrite app_nil_r.
Qed.

Lemma add_then_delete_witness :
  videos (store (after (deleteVideo (VideoMetadata.id party)
                          (after (addVideos [party]
                                    (device [clip; beach] [Healthy; Rejects EIO]))))))
  = [clip; beach].
Proof.
  apply (add_then_delete party (device [clip; beach] [Healthy; Rejects EIO])).
  - repeat constructor; discriminate.
  - reflexivity.
Defined.

Lemma filter_no_match (id : string) (l : list VideoMetadata) :
  Forall (fun v => VideoMetadata.id v <> id) (List.filter (fun v => negb (has_id id v)) l).
Proof.
  induction l as [|v l IH]; cbn; [constructor|].
  destruct (has_id id v) eqn:E; cbn; [done|].
  constructor; [by apply has_id_false | done].
Qed.

Lemma find_some_first (id : string) (l : list VideoMetadata) (v : VideoMetadata) :
  In v l -> VideoMetadata.id v = id -> exists u, List.find (has_id id) l = Some u.
Proof.
  intros Hin Hid. destruct (List.find (has_id id) l) as [u|] eqn:F; [eauto|].
  exfalso. apply (List.find_none _ _ F) in Hin. apply has_id_true in Hid. congruence.
Qed.

(** X7: [deleteVideo(id)] removes every record that carries the id, also
    when several do, but looks for a file only at the path of the first of
    them: every other path of the device is left as it was. *)
Theorem deleteVideo_duplicates (id : string) (w : World) (v : VideoMetadata) :
  List.find (has_id id) (videos (store w)) = Some v ->
  Forall (fun u => VideoMetadata.id u <> id) (videos (store (after (deleteVideo id w)))) /\
  (forall p, p <> VideoMetadata.path v ->
             fs (after (deleteVideo id w)) !! p = fs w !! p) /\
  (forall c r, In (Native c r) (events (deleteVideo id w)) ->
     (exists json, c = AsyncStorage_setItem_ STORAGE_KEY json) \/
     c = RNFS_exists_ (VideoMetadata.path v) \/ c = RNFS_unlink_ (VideoMetadata.path v)).
Proof.
  intros F. split; [rewrite deleteVideo_videos, F; apply filter_no_match|].
  destruct w as [f s c fl st b]. unfold_store. cbn in F |- *. rewrite F.
  crunch.
  all: split; [intros p Hp; first [reflexivity | by rewrite lookup_delete_ne]|].
  all: intros c0 r0 Hin; cbn in Hin; repeat (destruct Hin as [[=]|Hin]); try done; subst; eauto.
Qed.

Lemma deleteVideo_duplicates_witness :
  let w := device [clip; beach; clip] [] in
  let r := deleteVideo (VideoMetadata.id clip) w in
  Forall (fun u => VideoMetadata.id u <> VideoMetadata.id clip) (videos (store (after r))) /\
  (forall p, p <> VideoMetadata.path clip -> fs (after r) !! p = fs w !! p) /\
  (forall c rp, In (Native c rp) (events r) ->
     (exists json, c = AsyncStorage_setItem_ STORAGE_KEY json) \/
     c = RNFS_exists_ (VideoMetadata.path clip) \/ c = RNFS_unlink_ (VideoMetadata.path clip)).
Proof.
  cbv zeta.
  apply (deleteVideo_duplicates (VideoMetadata.id clip) (device [clip; beach; clip] []) clip).
  reflexivity.
Defined.

(** X8: when the [setItem] of [deleteVideo] is rejected the record is
    already gone from the in-memory list, while the persisted value and the
    file are untouched: no call into the file system is made at all. *)
Theorem deleteVideo_persist_failure (id : string) (w : World) (k json : string) (e : JS.Error) :
  In (Native (AsyncStorage_setItem_ k json) (Rejected e)) (events (deleteVideo id w)) ->
  videos (store (after (deleteVideo id w))) =
    List.filter (fun v => negb (has_id id v)) (videos (store w)) /\
  storage (after (deleteVideo id w)) = storage w /\
  fs (after (deleteVideo id w)) = fs w /\
  error (store (after (deleteVideo id w))) = Some ("Failed to delete video: " +:+ JS.message e) /\
  events (deleteVideo id w) =
    [Native (AsyncStorage_setItem_ k json) (Rejected e);
     Console_error [Text "Delete error:"; Err e]].
Proof.
  destruct w as [f s c fl st b]. unfold_store. cbn.
  destruct (List.find (has_id id) (videos st)) as [v|] eqn:F.
  2: { cbn. intros [[=]|[]]. }
  crunch.
  all: intros Hin; repeat (destruct Hin as [[=]|Hin]); try done; subst; by repeat split.
Qed.

Lemma deleteVideo_persist_failure_witness :
  let w := device [clip; beach] [Rejects EIO] in
  let r := deleteVideo (VideoMetadata.id clip) w in
  videos (store (after r)) =
    List.filter (fun v => negb (has_id (VideoMetadata.id clip) v)) (videos (store w)) /\
  storage (after r) = storage w /\
  fs (after r) = fs w /\
  error (store (after r)) = Some ("Failed to delete video: " +:+ JS.message EIO) /\
  events r =
    [Native (AsyncStorage_setItem_ STORAGE_KEY (JSON_stringify [beach])) (Rejected EIO);
     Console_error [Text "Delete error:"; Err EIO]].
Proof.
  cbv zeta.
  apply (deleteVideo_persist_failure (VideoMetadata.id clip) (device [clip; beach] [Rejects EIO])
           STORAGE_KEY (JSON_stringify [beach]) EIO).
  left. reflexivity.
Defined.

(** X9: a [deleteVideo] that ends without error leaves no file at the
    path of the record it found and every other path as it was. *)
Theorem deleteVideo_success_removes_file (id : string) (w : World) :
  error (store (after (deleteVideo id w))) = None ->
  exists v, List.find (has_id id) (videos (store w)) = Some v /\
    fs (after (deleteVideo id w)) !! VideoMetadata.path v = None /\
    (forall p, p <> VideoMetadata.path v -> fs (after (deleteVideo id w)) !! p = fs w !! p).
Proof.
  destruct w as [f s c fl st b]. unfold_store. cbn.
  destruct (List.find (has_id id) (videos st)) as [v|] eqn:F; [|discriminate].
  crunch.
  all: intros H; try discriminate H.
  all: exists v; split; [reflexivity|].
  all: split; [first [assumption | apply lookup_delete_eq]
              | intros p Hp; first [reflexivity | by rewrite lookup_delete_ne]].
Qed.

Lemma deleteVideo_success_removes_file_witness :
  let w := device [clip; beach] [] in
  let r := deleteVideo (VideoMetadata.id clip) w in
  exists v, List.find (has_id (VideoMetadata.id clip)) (videos (store w)) = Some v /\
    fs (after r) !! VideoMetadata.path v = None /\
    (forall p, p <> VideoMetadata.path v -> fs (after r) !! p = fs w !! p).
Proof.
  cbv zeta.
  apply (deleteVideo_success_removes_file (VideoMetadata.id clip) (device [clip; beach] [])).
  vm_compute. reflexivity.
Defined.

(** X10: [deleteVideo] leaves the selection alone: after the deletion of
    the selected video the store still selects the record that is no longer
    in its list. *)
Theorem deleteVideo_keeps_selection (w : World) (v : VideoMetadata) :
  selectedVideo (store w) = Some v ->
  In v (videos (store w)) ->
  let w' := after (deleteVideo (VideoMetadata.id v) w) in
  selectedVideo (store w') = Some v /\ ~ In v (videos (store w')).
Proof.
  intros Hsel Hin w'. split.
  - subst w'. rewrite <- Hsel. clear.
    destruct w as [f s c fl st b]. unfold_store. cbn.
    destruct (List.find (has_id (VideoMetadata.id v)) (videos st)) as [u|]; [|reflexivity].
    crunch; reflexivity.
  - subst w'. rewrite deleteVideo_videos.
    destruct (find_some_first (VideoMetadata.id v) _ v Hin eq_refl) as [u ->].
    intros H. apply list_elem_of_In in H.
    pose proof (filter_no_match (VideoMetadata.id v) (videos (store w))) as Hno.
    rewrite Forall_forall in Hno. by apply Hno in H.
Qed.

Lemma deleteVideo_keeps_selection_witness :
  let w' := after (deleteVideo (VideoMetadata.id clip) (watching [clip; beach] clip [])) in
  selectedVideo (store w') = Some clip /\ ~ In clip (videos (store w')).
Proof.
  apply (deleteVideo_keeps_selection (watching [clip; beach] clip []) clip).
  - reflexivity.
  - left. reflexivity.
Defined.

(** ** Loading and the delete dialog *)

Lemma JSON_stringify_truthy (vs : list VideoMetadata) :
  JS.truthy_string (Some (JSON_stringify vs)) = true.
Proof. reflexivity. Qed.

(** X11: [loadVideos] only reads: it always resolves with the loading
    flag down, makes the single native call [getItem] of the storage key, and
    leaves the files, the persisted values and the selection as they were
    (whatever [JSON.parse] does). *)
Theorem loadVideos_read_only (JSON_parse : string -> JS.Error + list VideoMetadata) (w : World) :
  let r := loadVideos JSON_parse w in
  result r = Ok tt /\ isLoading (store (after r)) = false /\
  fs (after r) = fs w /\ storage (after r) = storage w /\
  selectedVideo (store (after r)) = selectedVideo (store w) /\
  forall c rep, In (Native c rep) (events r) -> c = AsyncStorage_getItem_ STORAGE_KEY.
Proof.
  destruct w as [f s c fl st b]. unfold_store. unfold_more. unfold native, bind, try_catch, try_finally, next_fault.
  destruct fl as [|[|?|? ?] fl]; cbn.
  1,2: destruct (s !! STORAGE_KEY) as [[|a str]|]; cbn;
       try destruct (JSON_parse _); cbn.
  all: repeat split; try reflexivity.
  all: intros c0 r0 Hin; repeat (destruct Hin as [[=]|Hin]); done.
Qed.

(** X12: when [loadVideos] ends with an error the list in memory is the
    one before the call and the error is the fixed text; the cause goes to
    the console only, as the last thing logged: it is the error [getItem]
    rejected with, or the error [JSON.parse] threw on the text stored under
    the key. *)
Theorem loadVideos_failure (JSON_parse : string -> JS.Error + list VideoMetadata) (w : World) :
  let r := loadVideos JSON_parse w in
  error (store (after r)) <> None ->
  videos (store (after r)) = videos (store w) /\
  error (store (after r)) = Some "Failed to load videos from storage" /\
  exists e,
    last (events r) = Some (Console_error [Err e]) /\
    (events r = [Native (AsyncStorage_getItem_ STORAGE_KEY) (Rejected e);
                 Console_error [Err e]]
     \/
     exists stored,
       storage w !! STORAGE_KEY = Some stored /\
       JSON_parse stored = inl e /\
       events r = [Native (AsyncStorage_getItem_ STORAGE_KEY) (Item (Some stored));
                   Console_error [Err e]]).
Proof.
  destruct w as [f s c fl st b]. unfold_store. unfold_more.
  unfold native, bind, try_catch, try_finally, next_fault.
  destruct fl as [|[|?|? ?] fl]; cbn.
  1,2: destruct (s !! STORAGE_KEY) as [[|a str]|] eqn:K; cbn;
       try destruct (JSON_parse _) as [e0|l] eqn:P; cbn.
  all: intros H; try done.
  all: split; [reflexivity|]; split; [reflexivity|].
  all: eexists; split; [reflexivity|].
  all: first [ by left | right; eexists; by repeat split ].
Qed.

Lemma loadVideos_failure_witness :
  let w := device [clip] [Rejects EIO] in
  let r := loadVideos (parse_only [clip]) w in
  videos (store (after r)) = videos (store w) /\
  error (store (after r)) = Some "Failed to load videos from storage" /\
  exists e,
    last (events r) = Some (Console_error [Err e]) /\
    (events r = [Native (AsyncStorage_getItem_ STORAGE_KEY) (Rejected e);
                 Console_error [Err e]]
     \/
     exists stored,
       storage w !! STORAGE_KEY = Some stored /\
       parse_only [clip] stored = inl e /\
       events r = [Native (AsyncStorage_getItem_ STORAGE_KEY) (Item (Some stored));
                   Console_error [Err e]]).
Proof.
  apply (loadVideos_failure (parse_only [clip]) (device [clip] [Rejects EIO])).
  discriminate.
Defined.

(** X13: what [addVideos] persisted is what [loadVideos] finds after a
    restart: when the save ended without error, [JSON.parse] reads
    [JSON.stringify]'s text of the list back and the load ends without
    error, the fresh store holds the list of before the restart. *)
Theorem load_after_restart (JSON_parse : string -> JS.Error + list VideoMetadata)
    (xs : list VideoMetadata) (w : World) :
  let w1 := after (addVideos xs w) in
  let w2 := after (loadVideos JSON_parse (restart w1)) in
  JSON_parse (JSON_stringify (videos (store w) ++ xs)) = inr (videos (store w) ++ xs) ->
  error (store w1) = None ->
  error (store w2) = None ->
  videos (store w2) = videos (store w1) /\ videos (store w2) = videos (store w) ++ xs.
Proof.
  intros w1 w2 Hparse H1 H2. subst w1 w2. revert H1 H2.
  destruct w as [f s c fl st b]. unfold_store. unfold_more. unfold restart, native, bind, try_catch, try_finally, next_fault.
  cbn in Hparse.
  destruct fl as [|[|?|? ?] [|[|?|? ?] fl]]; cbn; try done.
  all: rewrite lookup_insert_eq; cbn; rewrite Hparse; cbn; done.
Qed.

Lemma load_after_restart_witness :
  let w1 := after (addVideos [beach] (device [clip] [])) in
  let w2 := after (loadVideos (parse_only [clip; beach]) (restart w1)) in
  videos (store w2) = videos (store w1) /\ videos (store w2) = [clip; beach].
Proof.
  apply (load_after_restart (parse_only [clip; beach]) [beach] (device [clip] [])).
  - vm_compute. reflexivity.
  - reflexivity.
  - vm_compute. reflexivity.
Defined.

(** X14: after a [clearVideos] that ended without error a later
    [loadVideos] finds nothing to read: the list stays empty, whatever
    [JSON.parse] would do. *)
Theorem load_after_clear (JSON_parse : string -> JS.Error + list VideoMetadata) (w : World) :
  let w1 := after (clearVideos w) in
  error (store w1) = None ->
  videos (store (after (loadVideos JSON_parse w1))) = [].
Proof.
  intros w1 H1. subst w1. revert H1.
  destruct w as [f s c fl st b]. unfold_store. unfold_more. unfold native, bind, try_catch, try_finally, next_fault.
  destruct fl as [|[|?|? ?] [|[|?|? ?] fl]]; cbn; try done.
  all: rewrite ?lookup_delete_eq; cbn; done.
Qed.

Lemma load_after_clear_witness :
  videos (store (after (loadVideos (parse_only [clip])
                          (after (clearVideos (device [clip] [])))))) = [].
Proof.
  apply (load_after_clear (parse_only [clip]) (device [clip] [])). reflexivity.
Defined.

Lemma deleteVideo_resolves (id : string) (w : World) : result (deleteVideo id w) = Ok tt.
Proof.
  destruct w as [f s c fl st b]. unfold_store. cbn.
  destruct (List.find (has_id id) (videos st)) as [v|] eqn:F; [|reflexivity].
  crunch; reflexivity.
Qed.

(** X15: the delete dialog closes whatever [deleteVideo] did: after
    [handleDeletePress(video)], [confirmDelete] resolves with no video left
    to confirm and no record with the id of [video] stays in the list, also
    when the store reports an error. *)
Theorem confirmDelete_closes (video : VideoMetadata) (w : World) :
  let r := confirmDelete (handleDeletePress video) w in
  result r = Ok None /\
  Forall (fun u => VideoMetadata.id u <> VideoMetadata.id video) (videos (store (after r))).
Proof.
  cbn. unfold bind.
  pose proof (deleteVideo_resolves (VideoMetadata.id video) w) as Hr.
  pose proof (deleteVideo_videos (VideoMetadata.id video) w) as Hv.
  destruct (deleteVideo (VideoMetadata.id video) w) as [r w1 t]. cbn in *. subst r. cbn.
  split; [reflexivity|]. rewrite Hv.
  destruct (List.find _ _) eqn:F; [apply filter_no_match|].
  apply Forall_forall. intros u Hu%list_elem_of_In. apply has_id_false.
  exact (List.find_none _ _ F u Hu).
Qed.

(** ** What [copyVideoToStorage] touches *)

Ltac native_frame :=
  apply Preserves_native;
  [ done
  | intros w; cbn; repeat case_match; cbn; try done
  | try done ].

Lemma Preserves_Date_now_clockless {X} (f : World -> X) :
  (forall c w, f (with_clock c w) = f w) -> Preserves f Date_now.
Proof. intros H w. unfold Date_now. destruct (clock w); cbn; [done | apply H]. Qed.

Section Frame.
Variable p : string.

Lemma frame_exists q : Preserves (fs_at p) (RNFS_exists q).
Proof. native_frame. Qed.

Lemma frame_stat q : Preserves (fs_at p) (RNFS_stat q).
Proof. native_frame. Qed.

Lemma frame_mkdir q : p <> q -> Preserves (fs_at p) (RNFS_mkdir q).
Proof. intros H. native_frame. unfold fs_at; cbn. by rewrite lookup_insert_ne. Qed.

Lemma frame_copyFile s d : p <> d -> Preserves (fs_at p) (RNFS_copyFile s d).
Proof.
  intros H. native_frame.
  - unfold fs_at; cbn. by rewrite lookup_insert_ne.
  - intros n w. unfold fs_at; cbn. by rewrite lookup_insert_ne.
Qed.

Lemma frame_unlink q : p <> q -> Preserves (fs_at p) (RNFS_unlink q).
Proof. intros H. native_frame. unfold fs_at; cbn. by rewrite lookup_delete_ne. Qed.

Lemma frame_Date_now : Preserves (fs_at p) Date_now.
Proof. by apply Preserves_Date_now_clockless. Qed.

End Frame.

Section CopyFrame.
Variable D : string.

Lemma ensureVideoDirExists_frame p :
  p <> VIDEO_DIR D -> Preserves (fs_at p) (ensureVideoDirExists D).
Proof.
  intros H. apply Preserves_bind; [apply frame_exists|].
  intros b. by apply Preserves_when, frame_mkdir.
Qed.

Lemma copy_and_stat_frame p src name ts :
  p <> destPath_of D name ts -> Preserves (fs_at p) (copy_and_stat D src name ts).
Proof.
  intros H. unfold copy_and_stat.
  apply Preserves_bind.
  { destruct (JS.includes _ _); [apply Preserves_lift | apply Preserves_ret]. }
  intros processed. apply Preserves_bind.
  { destruct (JS.startsWith _ _); [|apply Preserves_ret].
    apply Preserves_bind; [apply frame_stat|].
    intros st. destruct (JS.truthy_string _); [apply Preserves_ret|].
    apply Preserves_bind; [apply Preserves_console_error | intros; apply Preserves_throw]. }
  intros actual. apply Preserves_bind; [apply frame_Date_now|]. intros _.
  apply Preserves_bind; [by apply frame_copyFile|]. intros _.
  apply Preserves_bind; [apply frame_Date_now|]. intros _.
  apply Preserves_bind; [apply frame_stat|]. intros st.
  apply Preserves_ret.
Qed.

Lemma cleanup_and_rethrow_frame p dest e :
  p <> dest -> Preserves (fs_at p) (cleanup_and_rethrow dest e).
Proof.
  intros H. unfold cleanup_and_rethrow.
  apply Preserves_bind; [apply Preserves_console_error|]. intros _.
  apply Preserves_bind; [apply frame_exists|]. intros b.
  apply Preserves_bind; [by apply Preserves_when, frame_unlink|].
  intros _. apply Preserves_throw.
Qed.

Lemma ensureVideoDirExists_storage : Preserves storage (ensureVideoDirExists D).
Proof.
  apply Preserves_bind; [native_frame|].
  intros b. apply Preserves_when. native_frame.
Qed.

Lemma copy_and_stat_storage src name ts : Preserves storage (copy_and_stat D src name ts).
Proof.
  unfold copy_and_stat.
  apply Preserves_bind.
  { destruct (JS.includes _ _); [apply Preserves_lift | apply Preserves_ret]. }
  intros processed. apply Preserves_bind.
  { destruct (JS.startsWith _ _); [|apply Preserves_ret].
    apply Preserves_bind; [native_frame|].
    intros st. destruct (JS.truthy_string _); [apply Preserves_ret|].
    apply Preserves_bind; [apply Preserves_console_error | intros; apply Preserves_throw]. }
  intros actual. apply Preserves_bind; [by apply Preserves_Date_now_clockless|]. intros _.
  apply Preserves_bind; [native_frame|]. intros _.
  apply Preserves_bind; [by apply Preserves_Date_now_clockless|]. intros _.
  apply Preserves_bind; [native_frame|]. intros st.
  apply Preserves_ret.
Qed.

Lemma cleanup_and_rethrow_storage dest e : Preserves storage (cleanup_and_rethrow dest e).
Proof.
  unfold cleanup_and_rethrow.
  apply Preserves_bind; [apply Preserves_console_error|]. intros _.
  apply Preserves_bind; [native_frame|]. intros b.
  apply Preserves_bind; [apply Preserves_when; native_frame|].
  intros _. apply Preserves_throw.
Qed.

(** A projection of the world that each stage of [copyVideoToStorage]
    leaves alone is left alone by the call. *)
Lemma copyVideoToStorage_preserves {X} (f : World -> X) (src : string) (name : option string)
    (w : World) :
  let ts := hd 0%Z (clock w) in
  Preserves f (ensureVideoDirExists D) ->
  Preserves f Date_now ->
  Preserves f (copy_and_stat D src name ts) ->
  (forall e, Preserves f (cleanup_and_rethrow (destPath_of D name ts) e)) ->
  f (after (copyVideoToStorage D src name w)) = f w.
Proof.
  intros ts H1 H2 H3 H4. unfold copyVideoToStorage, marked.
  match goal with |- f (after (match ?m w with _ => _ end)) = _ =>
    assert (f (after (m w)) = f w) as Hm; [|by destruct (m w)] end.
  unfold bind at 1.
  specialize (H1 w). pose proof (ensureVideoDirExists_clock D w) as C1.
  destruct (ensureVideoDirExists D w) as [[u|e1] w1 t1]; cbn in H1, C1; [|done].
  unfold bind at 1.
  specialize (H2 w1). pose proof (Date_now_run w1) as (R2 & _).
  destruct (Date_now w1) as [r2 w2 t2]; cbn in H2, R2. subst r2.
  rewrite C1. fold ts. unfold try_catch.
  specialize (H3 w2).
  destruct (copy_and_stat D src name ts w2) as [[meta|e0] w3 t3]; cbn in H3.
  - cbn. congruence.
  - specialize (H4 e0 w3).
    destruct (cleanup_and_rethrow _ e0 w3) as [r4 w4 t4]; cbn in *. congruence.
Qed.

(** X16: [ensureVideoDirExists] creates the video directory when nothing is
    at its path and otherwise leaves the device alone: when it resolves
    something is at [VIDEO_DIR], what was there before is still there, and
    every other path holds what it held. *)
Theorem ensureVideoDirExists_creates_once (w : World) :
  let r := ensureVideoDirExists D w in
  (result r = Ok tt -> fs (after r) !! VIDEO_DIR D <> None) /\
  (forall st, fs w !! VIDEO_DIR D = Some st ->
     fs (after r) = fs w /\ forall c rp, In (Native c rp) (events r) -> c = RNFS_exists_ (VIDEO_DIR D)) /\
  (forall p, p <> VIDEO_DIR D -> fs (after r) !! p = fs w !! p).
Proof.
  cbv zeta. split; [|split].
  - destruct w as [f s c fl st b].
    unfold ensureVideoDirExists, bind, when, ret, RNFS_exists, RNFS_mkdir, native, next_fault.
    crunch; intros H; try discriminate H; try done.
    all: by rewrite lookup_insert_eq.
  - intros st0 Hst. destruct w as [f s c fl st b]. cbn in Hst.
    unfold ensureVideoDirExists, bind, when, ret, RNFS_exists, RNFS_mkdir, native, next_fault.
    unfold VIDEO_DIR in *.
    destruct fl as [|[|?|? ?] fl]; cbn; rewrite ?Hst; cbn.
    all: split; [reflexivity|].
    all: intros c0 r0 Hin; repeat (destruct Hin as [[=]|Hin]); done.
  - intros p Hp. apply (ensureVideoDirExists_frame p Hp w).
Qed.

(** X17: a call of [copyVideoToStorage], whether it resolves or rejects,
    changes nothing but the video directory and the destination path: the
    persisted values, the store and every other path of the device
    (the picked file among them) are as before. *)
Theorem copyVideoToStorage_frame (src : string) (name : option string) (w : World) :
  let dest := destPath_of D name (hd 0%Z (clock w)) in
  let r := copyVideoToStorage D src name w in
  storage (after r) = storage w /\
  store (after r) = store w /\
  forall p, p <> VIDEO_DIR D -> p <> dest -> fs (after r) !! p = fs w !! p.
Proof.
  cbv zeta. split; [|split].
  - apply (copyVideoToStorage_preserves storage).
    + apply ensureVideoDirExists_storage.
    + by apply Preserves_Date_now_clockless.
    + apply copy_and_stat_storage.
    + intros e. apply cleanup_and_rethrow_storage.
  - apply (copyVideoToStorage_preserves store).
    + apply ensureVideoDirExists_store.
    + apply Preserves_Date_now_store.
    + apply copy_and_stat_store.
    + intros e. apply cleanup_and_rethrow_store.
  - intros p Hdir Hdest. apply (copyVideoToStorage_preserves (fs_at p)).
    + by apply ensureVideoDirExists_frame.
    + apply frame_Date_now.
    + by apply copy_and_stat_frame.
    + intros e. by apply cleanup_and_rethrow_frame.
Qed.

End CopyFrame.

Lemma RNFS_stat_Ok (p : string) (w w' : World) (st : StatResult) (t : list Event) :
  RNFS_stat p w = mkRun (Ok st) w' t -> fs w' !! p = Some st.
Proof.
  unfold RNFS_stat, native, next_fault.
  destruct (faults w) as [|[|e|e n] fl]; cbn.
  all: try (destruct (fs w !! p) eqn:E; cbn; intros H; inversion H; subst; by cbn).
  all: intros H; inversion H.
Qed.

Section CopyOutcome.
Variable D : string.

Lemma copy_and_stat_present (src : string) (name : option string) (ts : Z) (w w' : World)
    (meta : VideoMetadata) (t : list Event) :
  copy_and_stat D src name ts w = mkRun (Ok meta) w' t ->
  exists st, fs w' !! destPath_of D name ts = Some st /\
             VideoMetadata.size meta = sizeBytes_of st.
Proof.
  unfold copy_and_stat.
  set (decode := if JS.includes _ _ then _ else _).
  unfold bind at 1. destruct (decode w) as [[processed|e] w1 t1]; [|discriminate].
  set (resolve := if JS.startsWith _ _ then _ else _).
  unfold bind at 1. destruct (resolve w1) as [[actual|e] w2 t2]; [|discriminate].
  unfold bind at 1. destruct (Date_now w2) as [[c1|e] w3 t3]; [|discriminate].
  unfold bind at 1. destruct (RNFS_copyFile _ _ w3) as [[u|e] w4 t4]; [|discriminate].
  unfold bind at 1. destruct (Date_now w4) as [[c2|e] w5 t5]; [|discriminate].
  unfold bind at 1. destruct (RNFS_stat _ w5) as [[st|e] w6 t6] eqn:E6; [|discriminate].
  cbn. intros H. inversion H; subst. exists st. split; [|reflexivity].
  by apply RNFS_stat_Ok in E6.
Qed.

(** X18: when [copyVideoToStorage] resolves, the device holds a file at
    the path of the record it returns, and the size in the record is the
    size of that file as [RNFS.stat] reports it (read with [parseInt] when
    it is a string). *)
Theorem copied_file_is_present (src : string) (name : option string) (w : World)
    (meta : VideoMetadata) :
  let r := copyVideoToStorage D src name w in
  result r = Ok meta ->
  exists st, fs (after r) !! VideoMetadata.path meta = Some st /\
             VideoMetadata.size meta = sizeBytes_of st /\
             VideoMetadata.path meta = VIDEO_DIR D +:+ "/" +:+ VideoMetadata.id meta.
Proof.
  cbv zeta. unfold copyVideoToStorage, marked.
  match goal with |- result (match ?m w with _ => _ end) = _ -> _ =>
    destruct (m w) as [r w' t] eqn:E end.
  cbn. intros ->. revert E.
  unfold bind at 1.
  pose proof (ensureVideoDirExists_clock D w) as C1.
  destruct (ensureVideoDirExists D w) as [[u|e1] w1 t1]; cbn in C1; [|discriminate].
  unfold bind at 1.
  pose proof (Date_now_run w1) as (R2 & _).
  destruct (Date_now w1) as [r2 w2 t2]; cbn in R2. subst r2.
  unfold try_catch.
  destruct (copy_and_stat D src name _ w2) as [[meta'|e0] w3 t3] eqn:E3.
  - intros [= -> -> _].
    pose proof E3 as (st & Hfs & Hsz)%copy_and_stat_present.
    apply copy_and_stat_Ok in E3 as (actual & st' & pre & _ & ->).
    exists st. cbn in *. done.
  - pose proof (cleanup_and_rethrow_run (destPath_of D name (hd 0%Z (clock w1))) e0 w3)
      as (rest & _ & _ & (e' & Hr) & _).
    destruct (cleanup_and_rethrow _ e0 w3) as [r4 w4 t4]; cbn in *. subst r4.
    intros [=].
Qed.

(** X19: a source URI that contains [%] and is not a valid encoding is
    rejected before any copy is attempted: the call rejects without calling
    [RNFS.copyFile]; on a device whose native calls do not fail the error
    is the one [decodeURIComponent] threw and nothing is left at the
    destination path, whatever was there before. *)
Theorem undecodable_uri_is_rejected (src : string) (name : option string) (w : World)
    (e : JS.Error) :
  let dest := destPath_of D name (hd 0%Z (clock w)) in
  let r := copyVideoToStorage D src name w in
  JS.includes "%" src = true ->
  JS.decodeURIComponent src = inl e ->
  (exists e', result r = Throw e') /\
  (forall s d rp, ~ In (Native (RNFS_copyFile_ s d) rp) (events r)) /\
  (faults w = [] -> result r = Throw e /\ fs (after r) !! dest = None).
Proof.
  cbv zeta. intros Hinc Hdec.
  destruct w as [f s c fl st b].
  unfold copyVideoToStorage, marked, ensureVideoDirExists, copy_and_stat, cleanup_and_rethrow.
  rewrite Hinc, Hdec.
  unfold bind, try_catch, when, ret, throw, lift, console_error, emit, Date_now,
    RNFS_exists, RNFS_mkdir, RNFS_unlink, native, next_fault.
  cbn [clock hd].
  destruct c as [|ts c]; crunch.
  all: split; [eauto|]; split.
  all: try (intros ? ? ? Hin; repeat (destruct Hin as [[=]|Hin]); done).
  all: intros Hfl; try discriminate Hfl.
  all: split; [reflexivity|]; cbn; first [reflexivity | assumption | apply lookup_delete_eq].
Qed.

End CopyOutcome.

Lemma copied_file_is_present_witness :
  let r := copyVideoToStorage "/data" picked_beach (Some "beach.mov") (phone readings []) in
  let meta := VideoMetadata.mk "1700000001000_beach.mov" "beach.mov" (Num 7340032)
                "/data/imported_videos/1700000001000_beach.mov" (Num 1700000001000) in
  exists st, fs (after r) !! VideoMetadata.path meta = Some st /\
             VideoMetadata.size meta = sizeBytes_of st /\
             VideoMetadata.path meta = VIDEO_DIR "/data" +:+ "/" +:+ VideoMetadata.id meta.
Proof.
  cbv zeta.
  apply (copied_file_is_present "/data" picked_beach (Some "beach.mov") (phone readings [])).
  vm_compute. reflexivity.
Defined.

Lemma undecodable_uri_is_rejected_witness :
  let w := phone readings [] in
  let r := copyVideoToStorage "/data" broken_uri (Some "bad.mov") w in
  (exists e', result r = Throw e') /\
  (forall s d rp, ~ In (Native (RNFS_copyFile_ s d) rp) (events r)) /\
  (faults w = [] ->
   result r = Throw JS.URIError /\
   fs (after r) !! destPath_of "/data" (Some "bad.mov") (hd 0%Z (clock w)) = None).
Proof.
  cbv zeta.
  apply (undecodable_uri_is_rejected "/data" broken_uri (Some "bad.mov") (phone readings [])
           JS.URIError).
  - reflexivity.
  - vm_compute. reflexivity.
Defined.

(** ** Names and ids *)

Lemma append_cons (c : ascii) (a b : string) : String c a +:+ b = String c (a +:+ b).
Proof. reflexivity. Qed.

Lemma append_nil (b : string) : EmptyString +:+ b = b.
Proof. reflexivity. Qed.

Lemma all_chars_app (P : ascii -> bool) (a b : string) :
  all_chars P (a +:+ b) = all_chars P a && all_chars P b.
Proof.
  induction a as [|c a IH]; [done|].
  rewrite append_cons. cbn. by rewrite IH, andb_assoc.
Qed.

Lemma all_chars_impl (P Q : ascii -> bool) (s : string) :
  (forall c, P c = true -> Q c = true) -> all_chars P s = true -> all_chars Q s = true.
Proof.
  intros H. induction s as [|c s IH]; [done|]. cbn.
  intros [Hc Hs]%andb_prop. by rewrite (H c Hc), (IH Hs).
Qed.

Lemma digits_of_uint (d : Decimal.uint) : all_chars is_digit (NilEmpty.string_of_uint d) = true.
Proof. induction d; cbn; try done; by rewrite IHd. Qed.

Lemma digits_of_Z (z : Z) :
  all_chars (fun c => is_digit c || Ascii.eqb c "-") (JS.string_of_Z z) = true.
Proof.
  assert (forall d, all_chars (fun c => is_digit c || Ascii.eqb c "-")
                      (NilZero.string_of_uint d) = true) as H.
  { intros d. apply (all_chars_impl is_digit); [by intros c -> |].
    destruct d; try apply (digits_of_uint (_ d)); try done.
    all: cbn -[is_digit]; by rewrite digits_of_uint. }
  unfold JS.string_of_Z. destruct (Z.to_int z) as [d|d]; cbn -[NilZero.string_of_uint]; [apply H|].
  apply H.
Qed.

Lemma is_digit_safe (c : ascii) : is_digit c = true -> is_safe c = true.
Proof.
  unfold is_digit, is_safe. cbv zeta. intros ->. by rewrite !orb_true_r.
Qed.

Lemma sanitize_app (a b : string) : sanitize (a +:+ b) = sanitize a +:+ sanitize b.
Proof.
  induction a as [|c a IH]; [done|].
  rewrite append_cons. cbn [sanitize]. cbv zeta. rewrite IH.
  repeat case_match; try done.
Qed.

Lemma sanitize_safe (s : string) : all_chars is_safe s = true -> sanitize s = s.
Proof.
  induction s as [|c s IH]; [done|]. cbn. intros [Hc Hs]%andb_prop.
  by rewrite Hc, (IH Hs).
Qed.

Lemma sanitize_chars (s : string) :
  all_chars (fun c => is_safe c || Ascii.eqb c "_") (sanitize s) = true.
Proof.
  induction s as [|c s IH]; [done|]. cbn [sanitize]. cbv zeta.
  destruct (is_safe c) eqn:Hc; [cbn; by rewrite Hc, IH|].
  repeat case_match; try done; cbn; by rewrite IH.
Qed.

(** X20: the replacement of [copyVideoToStorage] is stable: a name made of
    letters, digits and dots only is kept as it is, replacing twice gives
    what replacing once gives, and the replacement of a name followed by an
    extension is the replacement of the name followed by that of the
    extension (so [.mp4] survives). *)
Theorem sanitize_stable (s ext : string) :
  (all_chars is_safe s = true -> sanitize s = s) /\
  sanitize (sanitize s) = sanitize s /\
  sanitize (s +:+ ext) = sanitize s +:+ sanitize ext.
Proof.
  split; [apply sanitize_safe|]. split; [|apply sanitize_app].
  induction s as [|c s IH]; [done|]. cbn [sanitize]. cbv zeta.
  destruct (is_safe c) eqn:Hc; [cbn; by rewrite Hc, IH|].
  repeat case_match; try done.
  all: rewrite ?append_cons, ?append_nil; cbn; by rewrite IH.
Qed.

(** X21: the id of a record, which is also the name of its file, is made
    of letters, digits, dots, underscores and (for a negative clock
    reading) a minus sign: no file name given to [copyVideoToStorage] can
    put a path separator into it. *)
Theorem id_is_path_safe (fileName : option string) (timestamp : Z) :
  all_chars id_char (finalName_of fileName timestamp) = true /\
  JS.includes "/" (finalName_of fileName timestamp) = false.
Proof.
  assert (all_chars id_char (finalName_of fileName timestamp) = true) as H.
  { unfold finalName_of, safeName_of. rewrite !all_chars_app.
    assert (all_chars id_char (JS.string_of_Z timestamp) = true) as Hd.
    { eapply all_chars_impl; [|apply digits_of_Z].
      cbn beta. intros c [H|H]%orb_prop; unfold id_char.
      - by rewrite (is_digit_safe c H).
      - rewrite H. by rewrite orb_true_r. }
    rewrite Hd. cbn [andb all_chars]. 
    destruct (JS.truthy_string fileName).
    - eapply all_chars_impl; [|apply sanitize_chars].
      cbn beta. intros c H. unfold id_char. by rewrite H.
    - rewrite !all_chars_app, Hd. reflexivity. }
  split; [exact H|].
  revert H. generalize (finalName_of fileName timestamp). intros s.
  induction s as [|c s IH]; [done|]. cbn. intros [Hc Hs]%andb_prop.
  rewrite (IH Hs). destruct (Ascii.eqb_spec c "/") as [->|]; [discriminate Hc | done].
Qed.

Lemma all_chars_excludes (P : ascii -> bool) (c : ascii) (s : string) :
  P c = false -> all_chars P s = true -> JS.includes c s = false.
Proof.
  intros Hc. induction s as [|a s IH]; [done|]. cbn. intros [Ha Hs]%andb_prop.
  rewrite (IH Hs). destruct (Ascii.eqb_spec a c) as [->|]; [congruence | done].
Qed.

Lemma split_at (c : ascii) (a b x y : string) :
  JS.includes c a = false -> JS.includes c b = false ->
  a +:+ String c x = b +:+ String c y -> a = b /\ x = y.
Proof.
  revert b. induction a as [|a0 a IH]; intros [|b0 b]; cbn.
  - intros _ _. rewrite !append_nil. by intros [= ->].
  - intros _ [H _]%orb_false_elim. rewrite append_nil, append_cons. intros [= <- _].
    by rewrite Ascii.eqb_refl in H.
  - intros [H _]%orb_false_elim _. rewrite append_nil, append_cons. intros [= -> _].
    by rewrite Ascii.eqb_refl in H.
  - intros [_ Ha]%orb_false_elim [_ Hb]%orb_false_elim. rewrite !append_cons.
    intros [= -> E]. destruct (IH b Ha Hb E) as [-> ->]. done.
Qed.

Lemma string_of_Z_inj (a b : Z) : JS.string_of_Z a = JS.string_of_Z b -> a = b.
Proof.
  unfold JS.string_of_Z. intros E. apply DecimalZ.to_int_inj.
  assert (forall z, NilZero.int_of_string (NilZero.string_of_int (Z.to_int z)) = Some (Z.to_int z)) as H.
  { intros z. apply NilZero.isi; destruct z; cbn; try discriminate.
    all: intros [= H]; by apply DecimalPos.Unsigned.to_uint_nonnil in H. }
  pose proof (H a) as Ha. rewrite E, H in Ha. congruence.
Qed.

Lemma append_inj_r (p a b : string) : p +:+ a = p +:+ b -> a = b.
Proof. induction p as [|c p IH]; [done|]. rewrite !append_cons. intros [= E]. auto. Qed.

(** X22: the id of a record determines the clock reading and the safe
    name it was built from, so two imports that read different clock values
    get different ids and different destination paths, whatever their file
    names; only imports within the same clock reading can collide, and then
    exactly when their safe names agree. *)
Theorem id_determines_timestamp (D : string) (n1 n2 : option string) (t1 t2 : Z) :
  (finalName_of n1 t1 = finalName_of n2 t2 <->
   t1 = t2 /\ safeName_of n1 t1 = safeName_of n2 t2) /\
  (t1 <> t2 -> destPath_of D n1 t1 <> destPath_of D n2 t2).
Proof.
  assert (finalName_of n1 t1 = finalName_of n2 t2 ->
          t1 = t2 /\ safeName_of n1 t1 = safeName_of n2 t2) as H.
  { unfold finalName_of. change ("_" +:+ ?x) with (String "_" x). intros E.
    apply split_at in E as [E1 E2].
    - split; [by apply string_of_Z_inj | done].
    - eapply all_chars_excludes; [|apply digits_of_Z]. reflexivity.
    - eapply all_chars_excludes; [|apply digits_of_Z]. reflexivity. }
  split; [split; [exact H|] |].
  - intros [-> E]. unfold finalName_of. by rewrite E.
  - intros Hne E. unfold destPath_of in E. apply append_inj_r, append_inj_r in E.
    by apply H in E as [? _].
Qed.

(** ** The validation loop *)

Lemma validate_sizes_errors (assets : list Picked.t) (va : list Asset.t) (errs : list string) :
  snd (validate_sizes assets va errs) = errs ++ omap rejection assets.
Proof.
  revert va errs. induction assets as [|a rest IH]; intros va errs; cbn [validate_sizes].
  - cbn. by rewrite app_nil_r.
  - rewrite omap_step. unfold rejection at 1, has_uri at 1.
    destruct (Picked.uri a) as [|c u] eqn:U; [apply IH|].
    destruct (validateVideoSize _) eqn:V; [|apply IH].
    by rewrite IH, <- app_assoc.
Qed.

(** X23: the validation loop files one message for every picked file that
    has a uri and fails the size check, in the order picked, and none for
    the others, so that each file with a uri ends either in the valid set
    or in the error list; a file whose size the picker does not report (or
    reports as [0]) counts as [0] bytes and is filed as too small. *)
Theorem validation_partitions (assets : list Picked.t) :
  let valid := fst (validate_sizes assets [] []) in
  let errors := snd (validate_sizes assets [] []) in
  errors = omap rejection assets /\
  (length valid + length errors = length (List.filter has_uri assets))%nat /\
  forall a, In a assets -> has_uri a = true -> falsy_size (Picked.size a) = true ->
    In (JS.or_string (Picked.name a) "Video" +:+ ": Video is too small (<5MB)") errors.
Proof.
  cbv zeta. rewrite validate_sizes_errors, validate_sizes_valid. cbn [app].
  split; [reflexivity|]. split.
  - rewrite length_map. induction assets as [|a rest IH]; [done|].
    cbn [List.filter]. rewrite omap_step. unfold rejection at 1, size_accepted at 1.
    destruct (has_uri a); cbn [andb]; [|exact IH].
    destruct (validateVideoSize _); cbn [length]; lia.
  - intros a Hin Hu Hs. apply list_elem_of_In, list_elem_of_omap. exists a.
    split; [by apply list_elem_of_In|].
    unfold rejection. rewrite Hu.
    assert (JS.or_number (Picked.size a) (Num 0) = Num 0) as ->.
    { destruct (Picked.size a) as [[z|]|]; cbn in *; [by rewrite Hs | done | done]. }
    reflexivity.
Qed.

(** ** The whole of [handleSelectVideos] *)

Section EmitsMore.
Context (P : Event -> Prop).

Lemma Emits_marked {A} (enter : Event) (settle : Result A -> Event) (m : M A) :
  P enter -> (forall r, P (settle r)) -> Emits P m -> Emits P (marked enter settle m).
Proof.
  intros He Hs Hm w. specialize (Hm w). unfold marked.
  destruct (m w) as [r w1 t1]; cbn in *.
  constructor; [done|]. apply Forall_app. split; [done|]. by repeat constructor.
Qed.

Lemma Emits_try_finally {A} (m : M A) (fin : M unit) :
  Emits P m -> Emits P fin -> Emits P (try_finally m fin).
Proof.
  intros Hm Hf w. specialize (Hm w). unfold try_finally.
  destruct (m w) as [r w1 t1]; cbn in *.
  specialize (Hf w1). destruct (fin w1) as [[u|e] w2 t2]; cbn in *; by apply Forall_app.
Qed.

End EmitsMore.

Lemma Emits_weaken {A} (P Q : Event -> Prop) (m : M A) :
  (forall ev, P ev -> Q ev) -> Emits P m -> Emits Q m.
Proof. intros H Hm w. eapply Forall_impl; [apply Hm | exact H]. Qed.

Lemma quiet_silent (ev : Event) : quiet ev -> silent ev.
Proof. by destruct ev. Qed.

Lemma addVideos_silent (vs : list VideoMetadata) : Emits silent (addVideos vs).
Proof.
  unfold addVideos.
  apply Emits_bind; [by apply Emits_emit|]. intros _.
  apply Emits_bind; [apply Emits_modify|]. intros _.
  apply Emits_try_finally; [|apply Emits_modify].
  apply Emits_try_catch.
  - apply Emits_bind; [apply Emits_gets|]. intros current.
    apply Emits_bind; [by apply Emits_native|]. intros _. apply Emits_modify.
  - intros e. apply Emits_bind; [apply Emits_modify|]. intros _. by apply Emits_emit.
Qed.

Section WholeRun.
Variable D : string.

Lemma copyVideoToStorage_silent src name : Emits silent (copyVideoToStorage D src name).
Proof.
  apply Emits_marked; [done | by intros [] |].
  apply Emits_bind.
  { apply (Emits_weaken quiet); [apply quiet_silent | apply ensureVideoDirExists_quiet]. }
  intros _. apply Emits_bind; [apply Emits_Date_now|]. intros ts.
  apply Emits_try_catch.
  { apply (Emits_weaken quiet); [apply quiet_silent | apply copy_and_stat_quiet]. }
  intros e. unfold cleanup_and_rethrow.
  apply Emits_bind; [by apply Emits_emit|]. intros _.
  apply Emits_bind; [by apply Emits_native|]. intros b.
  apply Emits_bind; [by apply Emits_when, Emits_native|]. intros _.
  apply Emits_throw.
Qed.

Lemma import_one_silent i asset sc errs : Emits silent (import_one D i asset sc errs).
Proof.
  apply Emits_try_catch.
  - apply Emits_bind; [apply Emits_modify|]. intros _.
    apply Emits_bind; [apply copyVideoToStorage_silent|]. intros meta.
    apply Emits_bind; [apply addVideos_silent|]. intros _. apply Emits_ret.
  - intros e. apply Emits_bind; [by apply Emits_emit|]. intros _. apply Emits_ret.
Qed.

Lemma import_loop_silent i assets sc errs : Emits silent (import_loop D i assets sc errs).
Proof.
  revert i sc errs. induction assets as [|asset rest IH]; intros i sc errs.
  - apply Emits_ret.
  - cbn [import_loop]. apply Emits_bind; [apply import_one_silent|]. intros r. apply IH.
Qed.

(** What the trace of the loop shows, asset after asset. *)
Lemma import_loop_observed (i : Z) (assets : list Asset.t) (sc : Z)
    (errs : list string) (w : World) :
  let r := import_loop D i assets sc errs w in
  entered (events r) = map (fun a => (Asset.uri a, Some (Asset.name a))) assets /\
  result r = Ok ((sc + Z.of_nat (length (copied (events r))))%Z,
                 errs ++ omap failure_of (events r)) /\
  videos (store (after r)) = videos (store w) ++ registered (events r) /\
  (forall t', registered (events r ++ t') = registered (events r) ++ registered t') /\
  (length (copied (events r)) + length (omap failure_of (events r)) = length assets)%nat.
Proof.
  cbv zeta. revert i sc errs w.
  induction assets as [|asset rest IH]; intros i sc errs w.
  - cbn. rewrite Z.add_0_r, !app_nil_r. by repeat split.
  - cbn [import_loop map].
    change (bind ?m ?k w) with
      (match m w with
       | mkRun (Ok a) w1 t1 => match k a w1 with mkRun r w2 t2 => mkRun r w2 (t1 ++ t2) end
       | mkRun (Throw e) w1 t1 => mkRun (Throw e) w1 t1
       end).
    destruct (import_one_observed D i asset sc errs w) as (Hen & Hres & Hv & Hreg & _).
    assert (length (copied (events (import_one D i asset sc errs w))) +
            length (omap failure_of (events (import_one D i asset sc errs w))) = 1)%nat as Hone.
    { destruct (import_one_run D i asset sc errs w) as (body & Hplain & Hcases).
      destruct Hcases as [(e & Hev & _) |
        (meta & reply & tail & actual & st & pre0 & _ & _ & _ & Hev & Htail & _)];
        rewrite Hev; unfold copied.
      - rewrite !omap_step, !omap_app, !omap_step.
        fold (copied body). rewrite (plain_copied body Hplain), (plain_failure body Hplain).
        reflexivity.
      - rewrite !omap_step, !omap_app, !omap_step.
        fold (copied body) (copied tail).
        rewrite (plain_copied body Hplain), (plain_failure body Hplain),
          (plain_copied tail Htail), (plain_failure tail Htail).
        reflexivity. }
    destruct (import_one D i asset sc errs w) as [r1 w1 t1]; cbn [result after events] in *.
    subst r1. cbn [fst snd].
    specialize (IH (i + 1)%Z (sc + Z.of_nat (length (copied t1)))%Z
                  (errs ++ omap failure_of t1) w1) as (IHen & IHres & IHv & IHreg & IHn).
    destruct (import_loop D (i + 1) rest _ _ w1) as [r2 w2 t2]; cbn [result after events] in *.
    subst r2. unfold entered, copied in *. rewrite !omap_app, !length_app, Hreg.
    split; [by rewrite Hen, IHen|]. split; [f_equal; f_equal; [lia | by rewrite app_assoc]|].
    split; [by rewrite IHv, Hv, app_assoc|].
    split; [|cbn [length]; lia].
    intros t'. by rewrite <- !app_assoc, Hreg, IHreg, app_assoc.
Qed.

End WholeRun.

Section Button.
Variable D : string.

(** The shape of a run that has something to import. *)
Lemma handleSelectVideos_run (assets : list Picked.t) (w : World)
    (a : Asset.t) (va : list Asset.t) (errs : list string) :
  validate_sizes assets [] [] = (a :: va, errs) ->
  exists w0 wl tl sc errs',
    videos (store w0) = videos (store w) /\
    import_loop D 0 (a :: va) 0 errs w0 = mkRun (Ok (sc, errs')) wl tl /\
    events (handleSelectVideos D (Chosen assets) w) = tl ++ events (final_report sc errs' wl) /\
    videos (store (after (handleSelectVideos D (Chosen assets) w))) = videos (store wl).
Proof.
  intros V. unfold handleSelectVideos. rewrite V.
  unfold try_finally, try_catch.
  cbn -[import_loop final_report].
  assert (forall w0, exists sc errs',
            result (import_loop D 0 (a :: va) 0 errs w0) = Ok (sc, errs')) as H.
  { intros w0. eexists. eexists. apply import_loop_observed. }
  revert H. generalize (import_loop D 0 (a :: va) 0 errs). intros loop H.
  match goal with |- context [bind loop _ ?w1] => set (w0 := w1) end.
  unfold bind. exists w0. destruct (H w0) as (sc & errs' & Hres).
  destruct (loop w0) as [rl wl tl]; cbn [result events after] in *.
  subst rl. cbn [fst snd].
  exists wl, tl, sc, errs'. split; [reflexivity|]. split; [reflexivity|].
  unfold final_report, bind, when, Alert_alert_, emit, ret.
  destruct (negb (0 <? sc)%Z), ((0 <? length errs')%nat && (sc =? 0)%Z);
    cbn; rewrite ?app_nil_r; done.
Qed.

Lemma final_report_events (sc : Z) (errs : list string) (w : World) :
  Forall plain (events (final_report sc errs w)) /\
  ((0 < sc)%Z -> events (final_report sc errs w) = []) /\
  ((sc <= 0)%Z -> In (Alert_alert "Error" "Failed to save any videos.")
                    (events (final_report sc errs w))).
Proof.
  unfold final_report, bind, when, Alert_alert_, emit, ret.
  destruct (0 <? sc)%Z eqn:Hsc; [apply Z.ltb_lt in Hsc | apply Z.ltb_ge in Hsc].
  - assert ((sc =? 0)%Z = false) as -> by (apply Z.eqb_neq; lia).
    rewrite andb_false_r. cbn. split; [constructor|]. split; [done | lia].
  - cbn [negb]. destruct (_ && _); cbn.
    all: split; [by repeat constructor|]; split; [lia | intros _; by left].
Qed.

(** X24: however a run of [handleSelectVideos] goes (cancelled, failed
    pick, nothing valid, copies or registrations that fail), the handler
    resolves and leaves the button idle: not processing, not preparing,
    progress [0/0]. *)
Theorem handleSelectVideos_resets (pick : PickOutcome) (w : World) :
  result (handleSelectVideos D pick w) = Ok tt /\
  button (after (handleSelectVideos D pick w)) = idle_button.
Proof.
  unfold handleSelectVideos, try_finally, try_catch.
  match goal with |- context [match ?b w with _ => _ end] =>
    destruct (b w) as [[[]|e] w0 t0] end.
  all: cbn; by split.
Qed.

(** X25: when the picker is cancelled, fails, or yields no file that
    passes validation, the handler touches nothing on the device: files,
    persisted values, clock and video list are as before and no native call
    is made.  A cancelled pick shows nothing; a failed pick is logged and
    shown in one alert; a pick without a valid file shows the validation
    alert only.  In each case the store's error is cleared. *)
Theorem nothing_to_import (pick : PickOutcome) (w : World) :
  let r := handleSelectVideos D pick w in
  importable pick = [] ->
  fs (after r) = fs w /\ storage (after r) = storage w /\ clock (after r) = clock w /\
  videos (store (after r)) = videos (store w) /\
  error (store (after r)) = None /\
  events r =
    match pick with
    | Cancelled => []
    | PickFailed e =>
        [Console_error [Err e];
         Alert_alert "Error" ("An unexpected error occurred: " +:+ JS.message e)]
    | Chosen assets =>
        [Alert_alert "Validation Error" (no_valid_message (snd (validate_sizes assets [] [])))]
    end.
Proof.
  cbv zeta. destruct pick as [assets| |e]; cbn [importable]; intros Hnone.
  - unfold handleSelectVideos.
    destruct (validate_sizes assets [] []) as [va errs]. cbn in Hnone. subst va.
    cbn. by repeat split.
  - cbn. by repeat split.
  - cbn. by repeat split.
Qed.

(** X26: the handler copies exactly the picked files that validation
    admits, in the order picked, each once and under its standardized
    name, and the list it leaves is the list it found followed by the
    records whose registration was persisted. *)
Theorem handleSelectVideos_imports_admitted (pick : PickOutcome) (w : World) :
  let r := handleSelectVideos D pick w in
  entered (events r) = map (fun a => (Asset.uri a, Some (Asset.name a))) (importable pick) /\
  videos (store (after r)) = videos (store w) ++ registered (events r).
Proof.
  cbv zeta. destruct (importable pick) as [|a va] eqn:V.
  - destruct pick as [assets| |e]; cbn [importable] in V.
    + unfold handleSelectVideos.
      destruct (validate_sizes assets [] []) as [va errs]. cbn in V. subst va.
      cbn. by rewrite app_nil_r.
    + cbn. by rewrite app_nil_r.
    + cbn. by rewrite app_nil_r.
  - destruct pick as [assets| |e]; try discriminate V. cbn in V.
    destruct (validate_sizes assets [] []) as [va' errs] eqn:V'. cbn in V. subst va'.
    destruct (handleSelectVideos_run assets w a va errs V')
      as (w0 & wl & tl & sc & errs' & Hw0 & Hloop & Hev & Hv).
    destruct (import_loop_observed D 0 (a :: va) 0 errs w0) as (Hen & _ & Hvl & Hreg & _).
    rewrite Hloop in Hen, Hvl, Hreg. cbn [events after] in *.
    destruct (final_report_events sc errs' wl) as (Hplain & _).
    rewrite Hev, Hv, Hvl, Hw0, Hreg. unfold entered in *. rewrite omap_app, Hen.
    fold (entered (events (final_report sc errs' wl))).
    rewrite (plain_entered _ Hplain), app_nil_r.
    rewrite <- (app_nil_r (events (final_report sc errs' wl))), plain_registered by done.
    cbn. by rewrite app_nil_r.
Qed.

(** X27: the user is told of a failure only when nothing at all was
    copied: a run raises no alert exactly when the pick was cancelled or at
    least one copy resolved, so the failures of a run in which some copy
    resolved are never shown, and a run with files to import of which none
    could be copied always shows the alert that nothing was saved. *)
Theorem alert_iff_nothing_copied (pick : PickOutcome) (w : World) :
  let r := handleSelectVideos D pick w in
  (Forall silent (events r) <-> pick = Cancelled \/ copied (events r) <> []) /\
  (importable pick <> [] -> copied (events r) = [] ->
   In (Alert_alert "Error" "Failed to save any videos.") (events r)).
Proof.
  cbv zeta. destruct (importable pick) as [|a va] eqn:V.
  - split; [|done]. destruct pick as [assets| |e]; cbn [importable] in V.
    + unfold handleSelectVideos.
      destruct (validate_sizes assets [] []) as [va errs]. cbn in V. subst va.
      cbn. split; [intros H; by inversion H | by intros [|]].
    + cbn. split; [by left | constructor].
    + cbn. split; [intros H; inversion H as [|? ? _ H']; by inversion H' | by intros [|]].
  - destruct pick as [assets| |e]; try discriminate V. cbn in V.
    destruct (validate_sizes assets [] []) as [va' errs] eqn:V'. cbn in V. subst va'.
    destruct (handleSelectVideos_run assets w a va errs V')
      as (w0 & wl & tl & sc & errs' & Hw0 & Hloop & Hev & Hv).
    destruct (import_loop_observed D 0 (a :: va) 0 errs w0) as (_ & Hres & _).
    pose proof (import_loop_silent D 0 (a :: va) 0 errs w0) as Hsil.
    rewrite Hloop in Hres, Hsil. cbn [events result] in *.
    destruct (final_report_events sc errs' wl) as (Hplain & Hpos & Hzero).
    injection Hres as Hsc _. rewrite Z.add_0_l in Hsc.
    rewrite Hev. unfold copied in *. rewrite omap_app.
    fold (copied (events (final_report sc errs' wl))). rewrite (plain_copied _ Hplain), app_nil_r.
    fold (copied tl) in *.
    destruct (copied tl) as [|m ms] eqn:C; cbn [length] in Hsc.
    + assert (In (Alert_alert "Error" "Failed to save any videos.")
                (tl ++ events (final_report sc errs' wl))) as Hin.
      { apply in_or_app. right. apply Hzero. lia. }
      split; [|done]. split; [|by intros [|]].
      intros H. rewrite Forall_forall in H. apply list_elem_of_In in Hin. by apply H in Hin.
    + split; [|done]. split; [by right|]. intros _.
      rewrite Hpos by lia. by rewrite app_nil_r.
Qed.

End Button.

Lemma nothing_to_import_witness :
  let w := device [clip] [] in
  let r := handleSelectVideos "/data" (Chosen [small_pick]) w in
  fs (after r) = fs w /\ storage (after r) = storage w /\ clock (after r) = clock w /\
  videos (store (after r)) = videos (store w) /\
  error (store (after r)) = None /\
  events r =
    [Alert_alert "Validation Error"
       (no_valid_message (snd (validate_sizes [small_pick] [] [])))].
Proof.
  cbv zeta.
  apply (nothing_to_import "/data" (Chosen [small_pick]) (device [clip] [])).
  reflexivity.
Defined.
